(** * The translate command: dedup cache, requester, backoff, splitter,
      per-file translator.

    A shallow embedding of [src/unnamed/part_000] (the [translate] command
    of the documentation builder) and the properties of its batching
    pipeline.

    Conventions of the embedding.
    - A JavaScript string is a [string]; one character stands for one
      UTF-16 code unit (those below 256 are all that is needed here), so
      [String.length] is the source's [text.length]. This is the quantity
      the source compares with [BYTES_LIMIT] and sums in [bufferSize]. It
      is not the number of bytes of the text: a code unit from 128 on
      takes two bytes or more in UTF-8, see [byte_length].
    - JavaScript numbers that count things ([bufferSize], [stat.bytes],
      [stat.chunks], retry delays) are integers far below 2^53; they are
      modelled as [Z].
    - The [Map<string, Defer>] is a [gmap string Defer]; a [Defer] is a
      mutable object, modelled as a location in a heap of defer states, so
      that every holder of [defer.promise] observes the same settlement.
    - Effects are explicit: every function takes the state of the language
      run and returns the new one. *)

From stdpp Require Import gmap strings list fin_maps.
From Stdlib Require Import ZArith Lia.

Local Open Scope Z_scope.

(** ** Constants (source lines 28-30) *)

Definition REQUESTS_LIMIT : Z := 20.
Definition BYTES_LIMIT : Z := 10000.
Definition RETRY_LIMIT : Z := 3.

(** [text.length]. *)
Definition text_length (text : string) : Z := Z.of_nat (String.length text).

(** [Buffer.byteLength(text)], the number of bytes of the text in UTF-8,
    for a text whose code units are below 256: one byte for a code unit
    below 128, two from 128 on. The source never computes it; it is what
    "byte-length" means, to be compared with [text_length]. *)
Definition unit_byte_length (c : Ascii.ascii) : Z :=
  if (Ascii.nat_of_ascii c <? 128)%nat then 1 else 2.

Fixpoint byte_length (text : string) : Z :=
  match text with
  | EmptyString => 0
  | String c rest => unit_byte_length c + byte_length rest
  end.

(** Modelled from the spec: [bytes] is imported from [./utils], which is
    not part of the sources at hand; the spec describes it as the sum of
    the byte-length of each text. The length of a text is taken as the
    splitter takes it for the same texts, [text.length]. *)
Definition bytes (texts : list string) : Z :=
  foldr (fun text sum => text_length text + sum) 0 texts.

(** Modelled from the spec: [flat] is imported from [./utils]; the spec
    describes it as flattening each future's result, preserving overall
    order. *)
Definition flat (parts : list (list string)) : list string := concat parts.

(** ** Deferred values *)

(** The state of one [Defer]: nobody resolved it yet, or it holds the
    value it was resolved with. The source never rejects a [Defer]. *)
Inductive DeferState :=
  | Pending
  | Fulfilled (value : list string).

Global Instance DeferState_eq_dec : EqDecision DeferState.
Proof. solve_decision. Defined.

(** A [Defer] object is a location of the heap. *)
Abbreviation Defer := nat.
Abbreviation Heap := (list DeferState).

(** [new Defer()]: a fresh pending deferred. *)
Definition new_Defer (heap : Heap) : Defer * Heap :=
  (length heap, heap ++ [Pending]).

(** Modelled from the spec: the [Defer] class is imported from [./utils];
    the spec describes it as a future whose value is set exactly once.
    [defer.resolve(value)] fulfils a pending deferred and, as for every
    JavaScript promise, does nothing on one that is already settled. *)
Definition defer_resolve (d : Defer) (value : list string) (heap : Heap) : Heap :=
  match heap !! d with
  | Some Pending => <[d := Fulfilled value]> heap
  | _ => heap
  end.

(** ** Futures handed out by the splitter *)

Inductive Error :=
  | RequestError (message : string).

Inductive Outcome :=
  | Resolved (value : list string)
  | Rejected (error : Error).

Global Instance Error_eq_dec : EqDecision Error.
Proof. solve_decision. Defined.
Global Instance Outcome_eq_dec : EqDecision Outcome.
Proof. solve_decision. Defined.

(** The three kinds of promise the splitter pushes: [defer.promise],
    [Promise.resolve([text])] and [backoff(request(buffer))]; the last one
    is identified by the position of its batch among the batches of the
    run. *)
Inductive Promise :=
  | DeferPromise (d : Defer)
  | PromiseResolve (value : list string)
  | BackoffPromise (batch : nat).

Global Instance Promise_eq_dec : EqDecision Promise.
Proof. solve_decision. Defined.

(** ** State of one language run *)

Record Stat := { stat_bytes : Z; stat_chunks : Z }.

(** What [async.retry] does around one task, in order. *)
Inductive RetryEvent :=
  | Invoked
  | Waited (milliseconds : Z).

Global Instance RetryEvent_eq_dec : EqDecision RetryEvent.
Proof. solve_decision. Defined.

(** One batch handed to the requester: its texts, what the retrier did
    with its action, and how the retried action settled. *)
Record Batch := {
  batch_texts : list string;
  batch_trace : list RetryEvent;
  batch_outcome : Outcome
}.

(** Everything the closures of one target language share: the cache and
    the deferred objects it points to, [request.stat], the warnings
    written to the logger, the calls made to the translation backend and
    the batches formed so far. *)
Record Run := {
  cache : gmap string Defer;
  defers : Heap;
  stat : Stat;
  warnings : list (string * string);
  calls : list (list string);
  batches : list Batch
}.

(** [new Map()] and [request.stat = {bytes: 0, chunks: 0}]
    (source lines 82 and 186-189). *)
Definition initial : Run :=
  {| cache := ∅; defers := []; stat := {| stat_bytes := 0; stat_chunks := 0 |};
     warnings := []; calls := []; batches := [] |}.

Definition set_cache (c : gmap string Defer) (st : Run) : Run :=
  {| cache := c; defers := defers st; stat := stat st;
     warnings := warnings st; calls := calls st; batches := batches st |}.
Definition set_defers (h : Heap) (st : Run) : Run :=
  {| cache := cache st; defers := h; stat := stat st;
     warnings := warnings st; calls := calls st; batches := batches st |}.
Definition set_stat (s : Stat) (st : Run) : Run :=
  {| cache := cache st; defers := defers st; stat := s;
     warnings := warnings st; calls := calls st; batches := batches st |}.
Definition set_warnings (w : list (string * string)) (st : Run) : Run :=
  {| cache := cache st; defers := defers st; stat := stat st;
     warnings := w; calls := calls st; batches := batches st |}.
Definition set_calls (c : list (list string)) (st : Run) : Run :=
  {| cache := cache st; defers := defers st; stat := stat st;
     warnings := warnings st; calls := c; batches := batches st |}.
Definition set_batches (b : list Batch) (st : Run) : Run :=
  {| cache := cache st; defers := defers st; stat := stat st;
     warnings := warnings st; calls := calls st; batches := b |}.

(** ** async.retry

    [retry] comes from the [async] package (version 3, the one whose
    [retry] returns a promise when it is given no callback, which is how
    [backoff] uses it). Its loop is

    [[
    var attempt = 1;
    function retryAttempt() {
        _task((err, ...args) => {
            if (err && attempt++ < options.times && ...) {
                setTimeout(retryAttempt, options.intervalFunc(attempt - 1));
            } else {
                callback(err, ...args);
            }
        });
    }
    ]]

    so [times] bounds the number of calls of the task (the package
    documents it as "the number of attempts to make before giving up"),
    and the interval function receives the number of the retry that is
    about to start. The
    task is a state transformer yielding an outcome; the result carries
    the trace of invocations and waits. The recursion is on [remaining],
    the value of [times - attempt]: the test [attempt++ < times] succeeds
    exactly when it is not zero. *)
Module Retry.
Section retry.
Context {State : Type}.
Variable times : Z.
Variable intervalFunc : Z -> Z.
Variable task : State -> Outcome * State.

Definition DEFAULT_TIMES : Z := 5.

(** [acc.times = +t.times || DEFAULT_TIMES] *)
Definition parseTimes : Z := if times =? 0 then DEFAULT_TIMES else times.

Fixpoint retryAttempt (remaining : nat) (attempt : Z) (s : State)
    : list RetryEvent * Outcome * State :=
  let '(out, s1) := task s in
  match out, remaining with
  | Rejected _, S remaining' =>
      (* [attempt++]: the counter is [attempt + 1] from here on *)
      let '(trace, out', s2) := retryAttempt remaining' (attempt + 1) s1 in
      (Invoked :: Waited (intervalFunc (attempt + 1 - 1)) :: trace, out', s2)
  | _, _ => ([Invoked], out, s1)
  end.

Definition retry (s : State) : list RetryEvent * Outcome * State :=
  retryAttempt (Z.to_nat (parseTimes - 1)) 1 s.
End retry.
End Retry.

(** [backoff] (source lines 276-284): [times: RETRY_LIMIT] and
    [interval: count => Math.pow(2, count) * 1000]. *)
Definition backoff_interval (count : Z) : Z := 2 ^ count * 1000.

Definition backoff {State : Type} (action : State -> Outcome * State) (s : State)
    : list RetryEvent * Outcome * State :=
  Retry.retry RETRY_LIMIT backoff_interval action s.

(** ** Requester (source lines 138-192) *)

(** What a call to the backend rejects with, as far as the constructor of
    [RequestError] looks at it (source lines 45-47): [error?.message],
    absent when the value has none, and [String(error)]. *)
Record Thrown := {
  thrown_message : option string;
  thrown_string : string
}.

(** An [Error] object with the given message: [String(error)] is
    ["Error"] when the message is empty and ["Error: " + message]
    otherwise. *)
Definition js_Error (message : string) : Thrown :=
  {| thrown_message := Some message;
     thrown_string := if bool_decide (message = "") then "Error"
                      else "Error: " +:+ message |}.

(** [new RequestError(error)] (source lines 42-49): the message is
    [error?.message || String(error)], and a message that is absent or
    empty is falsy. *)
Definition new_RequestError (error : Thrown) : Error :=
  RequestError
    match thrown_message error with
    | Some message =>
        if bool_decide (message = "") then thrown_string error else message
    | None => thrown_string error
    end.

(** What the translation backend answers to one call. *)
Inductive Response :=
  | Translations (texts : list string)
  | Failure (error : Thrown).

Section pipeline.
(** [params.dryRun], and the backend behind [client.translate]: its answer
    to the [n]-th call of the run (counting from 0) for the given texts. *)
Variable dryRun : bool.
Variable client : nat -> list string -> Response.

(** The [resolve] closure (source lines 142-148). [texts[index]] is
    [undefined] past the end of [texts], and [cache.get(undefined)] finds
    nothing. *)
Definition resolve (text : string) (index : nat) (texts : list string)
    (st : Run) : string * Run :=
  match texts !! index with
  | Some key =>
      match cache st !! key with
      | Some defer => (text, set_defers (defer_resolve defer [text] (defers st)) st)
      | None => (text, st)
      end
  | None => (text, st)
  end.

(** [items.map((text, index) => resolve(text, index, texts))], from
    position [index] on. *)
Fixpoint map_resolve (items : list string) (index : nat) (texts : list string)
    (st : Run) : list string * Run :=
  match items with
  | [] => ([], st)
  | text :: rest =>
      let '(r, st1) := resolve text index texts st in
      let '(rs, st2) := map_resolve rest (S index) texts st1 in
      (r :: rs, st2)
  end.

(** The action returned by [request(texts)] (source lines 154-183). *)
Definition action (texts : list string) (st : Run) : Outcome * Run :=
  if dryRun then
    let '(out, st1) := map_resolve texts 0 texts st in
    (Resolved out, st1)
  else
    let st1 := set_calls (calls st ++ [texts]) st in
    match client (length (calls st)) texts with
    | Translations translations =>
        let '(out, st2) := map_resolve translations 0 texts st1 in
        (Resolved out, st2)
    | Failure error => (Rejected (new_RequestError error), st1)
    end.

(** [request(texts)] (source lines 150-153): the accounting, then the
    action, not started. *)
Definition request (texts : list string) (st : Run)
    : (Run -> Outcome * Run) * Run :=
  let st1 := set_stat {| stat_bytes := stat_bytes (stat st) + bytes texts;
                         stat_chunks := stat_chunks (stat st) |} st in
  let st2 := set_stat {| stat_bytes := stat_bytes (stat st1);
                         stat_chunks := stat_chunks (stat st1) + 1 |} st1 in
  (action texts, st2).


(** ** Splitter (source lines 237-274) *)

(** The variables of one invocation: [promises], [buffer], [bufferSize],
    and the state shared with the other closures. *)
Record Loop := {
  promises : list Promise;
  buffer : list string;
  bufferSize : Z;
  run : Run
}.

(** [promises.push(backoff(request(buffer)))]: the requester does its
    accounting, the retrier starts the action, and the promise of the
    retrier is pushed. The action is run to its settlement on the spot.
    In dry-run mode this is what the source does, the body of the action
    having nothing to wait for; in live mode it stands for a backend that
    has answered by the time the promises are awaited. The cache, the
    batches, the statistics and the warnings do not depend on it. In
    live mode the source starts the first attempt only and retries on
    timers, so the calls of different batches interleave: the order of
    [calls] across batches is the one of this settlement, not the one of
    the source, and no property below is about that order. *)
Definition dispatch (lp : Loop) : Loop :=
  let '(act, st1) := request (buffer lp) (run lp) in
  let '(trace, out, st2) := backoff act st1 in
  {| promises := promises lp ++ [BackoffPromise (length (batches st2))];
     buffer := buffer lp;
     bufferSize := bufferSize lp;
     run := set_batches (batches st2 ++
              [{| batch_texts := buffer lp; batch_trace := trace;
                  batch_outcome := out |}]) st2 |}.

(** The [release] closure (source lines 243-247). *)
Definition release (lp : Loop) : Loop :=
  let lp1 := dispatch lp in
  {| promises := promises lp1; buffer := []; bufferSize := 0; run := run lp1 |}.

Definition too_big : string := "Skip document part for translation. Part is too big.".

(** One turn of [for (const text of texts)] (source lines 249-266). *)
Definition splitter_step (path : string) (lp : Loop) (text : string) : Loop :=
  match cache (run lp) !! text with
  | Some defer =>
      {| promises := promises lp ++ [DeferPromise defer];
         buffer := buffer lp; bufferSize := bufferSize lp; run := run lp |}
  | None =>
      if text_length text >=? BYTES_LIMIT then
        {| promises := promises lp ++ [PromiseResolve [text]];
           buffer := buffer lp; bufferSize := bufferSize lp;
           run := set_warnings (warnings (run lp) ++ [(path, too_big)]) (run lp) |}
      else
        let lp1 :=
          if bufferSize lp + text_length text >? BYTES_LIMIT then release lp else lp in
        let '(defer, heap) := new_Defer (defers (run lp1)) in
        {| promises := promises lp1;
           buffer := buffer lp1 ++ [text];
           bufferSize := bufferSize lp1 + text_length text;
           run := set_cache (<[text := defer]> (cache (run lp1)))
                    (set_defers heap (run lp1)) |}
  end.

(** The loop, from the fresh variables of an invocation. *)
Definition splitter_loop (path : string) (texts : list string) (st : Run) : Loop :=
  foldl (splitter_step path)
        {| promises := []; buffer := []; bufferSize := 0; run := st |} texts.

(** The function returned by [splitter(request, cache)]. The last test is
    [if (bufferSize)]: a number is truthy when it is not zero. *)
Definition splitter (path : string) (texts : list string) (st : Run)
    : list Promise * Run :=
  let lp := splitter_loop path texts st in
  let lp' := if bufferSize lp =? 0 then lp else dispatch lp in
  (promises lp', run lp').

(** ** Awaiting *)

(** How a promise stands once everything that was started has settled. *)
Inductive Settlement (A : Type) :=
  | Value (value : A)
  | Raised (error : Error)
  | Never.
Global Arguments Value {A} _.
Global Arguments Raised {A} _.
Global Arguments Never {A}.

Definition await (st : Run) (p : Promise) : Settlement (list string) :=
  match p with
  | DeferPromise d =>
      match defers st !! d with
      | Some (Fulfilled value) => Value value
      | _ => Never
      end
  | PromiseResolve value => Value value
  | BackoffPromise k =>
      match batches st !! k with
      | Some b =>
          match batch_outcome b with
          | Resolved value => Value value
          | Rejected error => Raised error
          end
      | None => Never
      end
  end.

(** [await Promise.all(promises)]: the values in list order when all are
    fulfilled; a rejection as soon as one promise rejects; otherwise it
    never settles. *)
Fixpoint await_all (st : Run) (ps : list Promise) : Settlement (list (list string)) :=
  match ps with
  | [] => Value []
  | p :: rest =>
      match await st p, await_all st rest with
      | Raised error, _ => Raised error
      | _, Raised error => Raised error
      | Value v, Value vs => Value (v :: vs)
      | _, _ => Never
      end
  end.

End pipeline.

(** ** Per-file translator (source lines 194-235) *)

(** What the translator does to the outside world, in order. *)
Inductive Effect :=
  | Loaded (path : string)
  | DirectoryMade (path : string)
  | Extracted (content : string)
  | SplitCalled (path : string) (units : list string)
  | Composed (parts : list string)
  | Dumped (path : string) (content : option string).

(** How a call of the translator ends: it returns, it throws, or it waits
    for ever on a promise nobody settles. *)
Inductive Completion :=
  | Returned
  | Threw (error : Error)
  | Hangs.

(** [!content]: [undefined] and the empty string are falsy. *)
Definition falsy (content : option string) : bool :=
  match content with
  | None => true
  | Some text => bool_decide (text = "")
  end.

Definition supported : list string := [".yaml"; ".json"; ".md"].

Section translator.
(** The collaborators: [extname], [resolve] and [dirname] of the [path]
    module, [loadFile], [extract] and [compose] of [./utils], the
    [input] and [output] parameters. [loadFile] yields the content, or
    nothing. *)
Variable Skeleton : Type.
Variable extname : string -> string.
Variable path_resolve : string -> string -> string.
Variable dirname : string -> string.
Variable loadFile : string -> option string.
Variable extract : string -> list string * Skeleton.
Variable compose : Skeleton -> list string -> string.
Variables input output : string.
Variable dryRun : bool.
Variable client : nat -> list string -> Response.

Definition translator (path : string) (st : Run) : Completion * list Effect * Run :=
  let ext := extname path in
  if negb (bool_decide (ext ∈ supported)) then (Returned, [], st)
  else
    let inputPath := path_resolve input path in
    let outputPath := path_resolve output path in
    let content := loadFile inputPath in
    let fx := [Loaded inputPath; DirectoryMade (dirname outputPath)] in
    if falsy content then (Returned, fx ++ [Dumped outputPath content], st)
    else
      let text := default "" content in
      let '(units, skeleton) := extract text in
      let fx1 := fx ++ [Extracted text] in
      if (length units =? 0)%nat then
        (Returned, fx1 ++ [Dumped outputPath content], st)
      else
        let '(ps, st1) := splitter dryRun client path units st in
        let fx2 := fx1 ++ [SplitCalled path units] in
        match await_all st1 ps with
        | Value values =>
            let parts := flat values in
            let composed := compose skeleton parts in
            (Returned, fx2 ++ [Composed parts; Dumped outputPath (Some composed)], st1)
        | Raised error => (Threw error, fx2, st1)
        | Never => (Hangs, fx2, st1)
        end.

End translator.

(** ** A language run *)

(** The splitter invocations of one target language, in the order in which
    they happen, from the fresh cache and statistics of source lines
    82-85. Each invocation is one file: its path and its units. *)
Definition language_run (dryRun : bool) (client : nat -> list string -> Response)
    (files : list (string * list string)) : Run :=
  foldl (fun st file => (splitter dryRun client file.1 file.2 st).2) initial files.

(** The texts of the batches formed so far, batch by batch. *)
Definition formed (st : Run) : list (list string) := batch_texts <$> batches st.

(** * Properties *)

(** ** Backoff retrier *)

(** The invocations and the waits of a trace. *)
Fixpoint invocations (trace : list RetryEvent) : nat :=
  match trace with
  | [] => 0
  | Invoked :: rest => S (invocations rest)
  | Waited _ :: rest => invocations rest
  end.

Definition waits (trace : list RetryEvent) : list Z :=
  omap (fun e => match e with Waited ms => Some ms | Invoked => None end) trace.

Definition rejected (out : Outcome) : Prop :=
  match out with Rejected _ => True | Resolved _ => False end.

Section backoff_facts.
Context {State : Type}.
Variable task : State -> Outcome * State.

(** A task that succeeds is called once, whatever is left to try. *)
Lemma retryAttempt_resolved interval remaining attempt s value :
  (task s).1 = Resolved value ->
  Retry.retryAttempt interval task remaining attempt s
  = ([Invoked], Resolved value, (task s).2).
Proof.
  intros H. destruct remaining; simpl; destruct (task s) as [out s1];
    simpl in H; subst out; reflexivity.
Qed.

(** A task that fails is called again while attempts remain. *)
Lemma retryAttempt_rejected interval remaining attempt s :
  rejected (task s).1 ->
  Retry.retryAttempt interval task (S remaining) attempt s
  = let r := Retry.retryAttempt interval task remaining (attempt + 1) (task s).2 in
    (Invoked :: Waited (interval attempt) :: r.1.1, r.1.2, r.2).
Proof.
  intros H. simpl. destruct (task s) as [[v|e] s1]; simpl in *; [done|].
  replace (attempt + 1 - 1) with attempt by lia.
  by destruct (Retry.retryAttempt _ _ _ _ _) as [[tr o] s2].
Qed.

(** The last attempt settles the retrier, whatever its outcome. *)
Lemma retryAttempt_last interval attempt s :
  Retry.retryAttempt interval task 0 attempt s = ([Invoked], (task s).1, (task s).2).
Proof. simpl. by destruct (task s) as [[v|e] s1]. Qed.

(** The number of invocations never exceeds [times]. *)
Lemma retryAttempt_invocations interval remaining attempt s :
  (invocations (Retry.retryAttempt interval task remaining attempt s).1.1
   <= S remaining)%nat.
Proof.
  revert attempt s. induction remaining as [|n IH]; intros attempt s.
  - rewrite retryAttempt_last. simpl. lia.
  - destruct (task s) as [[v|e] s1] eqn:E.
    + rewrite (retryAttempt_resolved _ _ _ _ v) by (by rewrite E).
      simpl. lia.
    + rewrite retryAttempt_rejected by (by rewrite E).
      simpl. specialize (IH (attempt + 1) (task s).2).
      lia.
Qed.

End backoff_facts.

(** A backend that is down: every call fails with the same message. *)
Definition always_down (calls : nat) : Outcome * nat :=
  (Rejected (RequestError "unavailable"), S calls).

(** C2, as stated, fails: an action that fails on every attempt is invoked
    three times, not four, and the retrier waits twice, 2000ms and 4000ms;
    no wait of 8000ms happens. *)
Lemma backoff_invoked_three_times :
  (forall calls, rejected (always_down calls).1) /\
  invocations (backoff always_down 0%nat).1.1 = 3%nat /\
  invocations (backoff always_down 0%nat).1.1 <> 4%nat /\
  waits (backoff always_down 0%nat).1.1 = [2000; 4000] /\
  waits (backoff always_down 0%nat).1.1 <> [2000; 4000; 8000].
Proof. split; [by intros|]. vm_compute. repeat split; congruence. Qed.

(** C2 (amended): a batch action whose call fails on every attempt is
    invoked exactly 3 times by the retrier ([times: RETRY_LIMIT] counts
    attempts: 1 initial attempt plus 2 retries); the delay before retry n
    (n = 1, 2) is 2^n * 1000 milliseconds, that is 2000ms then 4000ms; after
    the last failure the retrier rejects with the error of the last
    attempt. *)
Theorem backoff_exhausted {State : Type} (action : State -> Outcome * State) (s : State) :
  (forall s', rejected (action s').1) ->
  let s1 := (action s).2 in
  let s2 := (action s1).2 in
  backoff action s =
    ([Invoked; Waited (2 ^ 1 * 1000); Invoked; Waited (2 ^ 2 * 1000); Invoked],
     (action s2).1, (action s2).2)
  /\ invocations (backoff action s).1.1 = 3%nat
  /\ waits (backoff action s).1.1 = [2000; 4000]
  /\ rejected (backoff action s).1.2.
Proof.
  intros Hfail s1 s2.
  assert (E : backoff action s =
    ([Invoked; Waited (2 ^ 1 * 1000); Invoked; Waited (2 ^ 2 * 1000); Invoked],
     (action s2).1, (action s2).2)).
  { unfold backoff, Retry.retry.
    change (Z.to_nat (Retry.parseTimes RETRY_LIMIT - 1)) with 2%nat.
    rewrite retryAttempt_rejected by apply Hfail.
    rewrite retryAttempt_rejected by apply Hfail.
    rewrite retryAttempt_last. reflexivity. }
  rewrite E. repeat split; try reflexivity. simpl. apply Hfail.
Qed.

(** The retrier around the backend that is down. *)
Lemma backoff_exhausted_witness :
  (forall s', rejected (always_down s').1) /\
  backoff always_down 0%nat =
    ([Invoked; Waited 2000; Invoked; Waited 4000; Invoked],
     Rejected (RequestError "unavailable"), 3%nat).
Proof.
  split; [by intros|].
  exact (proj1 (backoff_exhausted always_down 0%nat (fun _ => I))).
Defined.

(** ** Dedup cache and requester *)

Lemma set_defers_same st : set_defers (defers st) st = st.
Proof. by destruct st. Qed.

Lemma defer_resolve_length d value heap :
  length (defer_resolve d value heap) = length heap.
Proof.
  unfold defer_resolve. destruct (heap !! d) as [[|v]|]; try done.
  apply length_insert.
Qed.

Lemma defer_resolve_pending d value heap :
  heap !! d = Some Pending ->
  defer_resolve d value heap !! d = Some (Fulfilled value).
Proof.
  intros H. unfold defer_resolve. rewrite H.
  apply list_lookup_insert_eq. by eapply lookup_lt_Some.
Qed.

Lemma defer_resolve_settled d value heap old :
  heap !! d = Some (Fulfilled old) -> defer_resolve d value heap = heap.
Proof. intros H. unfold defer_resolve. by rewrite H. Qed.

Lemma defer_resolve_dangling d value heap :
  heap !! d = None -> defer_resolve d value heap = heap.
Proof. intros H. unfold defer_resolve. by rewrite H. Qed.

Lemma defer_resolve_other d d' value heap :
  d <> d' -> defer_resolve d value heap !! d' = heap !! d'.
Proof.
  intros H. unfold defer_resolve. destruct (heap !! d) as [[|v]|]; try done.
  by apply list_lookup_insert_ne.
Qed.

(** A fulfilled deferred keeps its value whoever resolves what. *)
Lemma defer_resolve_keeps d d' value heap old :
  heap !! d' = Some (Fulfilled old) ->
  defer_resolve d value heap !! d' = Some (Fulfilled old).
Proof.
  intros H. destruct (decide (d = d')) as [->|Hne].
  - by rewrite (defer_resolve_settled _ _ _ old).
  - by rewrite defer_resolve_other.
Qed.

(** *** The [resolve] closure, case by case *)

Lemma resolve_fst text index texts st : (resolve text index texts st).1 = text.
Proof.
  unfold resolve. destruct (texts !! index) as [key|]; [|done].
  by destruct (cache st !! key).
Qed.

Lemma resolve_cache text index texts st :
  cache (resolve text index texts st).2 = cache st.
Proof.
  unfold resolve. destruct (texts !! index) as [key|]; [|done].
  by destruct (cache st !! key).
Qed.

Lemma resolve_entry text index texts st key d :
  texts !! index = Some key -> cache st !! key = Some d ->
  (resolve text index texts st).2 = set_defers (defer_resolve d [text] (defers st)) st.
Proof. intros Hk Hc. unfold resolve. by rewrite Hk, Hc. Qed.

Lemma resolve_no_entry text index texts st key :
  texts !! index = Some key -> cache st !! key = None ->
  (resolve text index texts st).2 = st.
Proof. intros Hk Hc. unfold resolve. by rewrite Hk, Hc. Qed.

Lemma resolve_no_key text index texts st :
  texts !! index = None -> (resolve text index texts st).2 = st.
Proof. intros Hk. unfold resolve. by rewrite Hk. Qed.

Lemma resolve_pending text index texts st key d :
  texts !! index = Some key -> cache st !! key = Some d ->
  defers st !! d = Some Pending ->
  defers (resolve text index texts st).2 !! d = Some (Fulfilled [text]).
Proof.
  intros Hk Hc Hp. rewrite (resolve_entry _ _ _ _ key d) by done. simpl.
  by apply defer_resolve_pending.
Qed.

(** C9: resolving a text in the cache is total and never raises. [resolve]
    is a function into [string * Run], with no failure outcome; it returns
    the translated text; if a pending deferred is stored under the key it
    is fulfilled with the one-element list of the value and nothing else
    changes; if no entry exists under the key (or there is no key at that
    position), or the deferred under it is already fulfilled, the state is
    left as it is. No entry of the cache is touched in any case. *)
Theorem resolve_total (text : string) (index : nat) (texts : list string) (st : Run) :
  (resolve text index texts st).1 = text
  /\ cache (resolve text index texts st).2 = cache st
  /\ (forall key d, texts !! index = Some key -> cache st !! key = Some d ->
        defers st !! d = Some Pending ->
        (resolve text index texts st).2
          = set_defers (<[d := Fulfilled [text]]> (defers st)) st
        /\ defers (resolve text index texts st).2 !! d = Some (Fulfilled [text]))
  /\ (forall key d old, texts !! index = Some key -> cache st !! key = Some d ->
        defers st !! d = Some (Fulfilled old) ->
        (resolve text index texts st).2 = st)
  /\ (forall key, texts !! index = Some key -> cache st !! key = None ->
        (resolve text index texts st).2 = st)
  /\ (texts !! index = None -> (resolve text index texts st).2 = st).
Proof.
  split; [apply resolve_fst|]. split; [apply resolve_cache|].
  split; [|split; [|split]].
  - intros key d Hk Hc Hp. split.
    + rewrite (resolve_entry _ _ _ _ key d) by done.
      unfold defer_resolve. by rewrite Hp.
    + by eapply resolve_pending.
  - intros key d old Hk Hc Hf. rewrite (resolve_entry _ _ _ _ key d) by done.
    rewrite (defer_resolve_settled _ _ _ old) by done. apply set_defers_same.
  - apply resolve_no_entry.
  - apply resolve_no_key.
Qed.

(** *** What mapping [resolve] over a list does *)

(** The parts of the state [resolve] never writes. *)
Definition same_but_defers (st st' : Run) : Prop :=
  cache st' = cache st /\ stat st' = stat st /\ warnings st' = warnings st
  /\ calls st' = calls st /\ batches st' = batches st
  /\ length (defers st') = length (defers st).

Lemma same_but_defers_refl st : same_but_defers st st.
Proof. by repeat split. Qed.

Lemma same_but_defers_trans st1 st2 st3 :
  same_but_defers st1 st2 -> same_but_defers st2 st3 -> same_but_defers st1 st3.
Proof. unfold same_but_defers. intuition congruence. Qed.

Lemma resolve_frame text index texts st :
  same_but_defers st (resolve text index texts st).2.
Proof.
  unfold resolve. destruct (texts !! index) as [key|]; [|apply same_but_defers_refl].
  destruct (cache st !! key) as [d|]; [|apply same_but_defers_refl].
  repeat split. simpl. apply defer_resolve_length.
Qed.

Lemma resolve_keeps text index texts st d old :
  defers st !! d = Some (Fulfilled old) ->
  defers (resolve text index texts st).2 !! d = Some (Fulfilled old).
Proof.
  intros H. unfold resolve. destruct (texts !! index) as [key|]; [|done].
  destruct (cache st !! key) as [d'|]; [|done]. simpl.
  by apply defer_resolve_keeps.
Qed.

Lemma map_resolve_fst items index texts st :
  (map_resolve items index texts st).1 = items.
Proof.
  revert index st. induction items as [|x rest IH]; intros index st; [done|].
  simpl. destruct (resolve x index texts st) as [r st1] eqn:E.
  specialize (IH (S index) st1).
  destruct (map_resolve rest (S index) texts st1) as [rs st2]. simpl in *.
  f_equal; [|done].
  change r with (r, st1).1. rewrite <- E. apply resolve_fst.
Qed.

Lemma map_resolve_cons x rest index texts st :
  map_resolve (x :: rest) index texts st
  = (x :: (map_resolve rest (S index) texts (resolve x index texts st).2).1,
     (map_resolve rest (S index) texts (resolve x index texts st).2).2).
Proof.
  simpl. destruct (resolve x index texts st) as [r st1] eqn:E. simpl.
  destruct (map_resolve rest (S index) texts st1) as [rs st2]. simpl.
  f_equal. f_equal. change r with (r, st1).1. rewrite <- E. apply resolve_fst.
Qed.

Lemma map_resolve_frame items index texts st :
  same_but_defers st (map_resolve items index texts st).2.
Proof.
  revert index st. induction items as [|x rest IH]; intros index st.
  - apply same_but_defers_refl.
  - rewrite map_resolve_cons. simpl.
    eapply same_but_defers_trans; [apply resolve_frame|apply IH].
Qed.

Lemma map_resolve_keeps items index texts st d old :
  defers st !! d = Some (Fulfilled old) ->
  defers (map_resolve items index texts st).2 !! d = Some (Fulfilled old).
Proof.
  revert index st. induction items as [|x rest IH]; intros index st H; [done|].
  rewrite map_resolve_cons. simpl. apply IH. by apply resolve_keeps.
Qed.

(** A deferred no key of the batch points to is left alone. *)
Lemma map_resolve_other items index texts st d :
  (forall key, key ∈ texts -> cache st !! key <> Some d) ->
  defers (map_resolve items index texts st).2 !! d = defers st !! d.
Proof.
  revert index st. induction items as [|x rest IH]; intros index st H; [done|].
  rewrite map_resolve_cons. simpl. rewrite IH.
  - unfold resolve. destruct (texts !! index) as [key|] eqn:Hk; [|done].
    destruct (cache st !! key) as [d'|] eqn:Hc; [|done]. simpl.
    apply defer_resolve_other. intros ->.
    apply (H key); [|done]. by eapply list_elem_of_lookup_2.
  - intros key Hin. destruct (resolve_frame x index texts st) as [-> _]. by apply H.
Qed.

(** Answering a batch position by position, the answer to a text being
    [tr] of it: every text's own deferred ends up fulfilled, and with the
    answer to that text when it was pending and belongs to that text
    alone. *)
Lemma map_resolve_answers (tr : string -> string) pre items st t d :
  t ∈ items -> cache st !! t = Some d ->
  (is_Some (defers st !! d) ->
     exists value,
       defers (map_resolve (tr <$> items) (length pre) (pre ++ items) st).2 !! d
       = Some (Fulfilled value))
  /\ (defers st !! d = Some Pending ->
      (forall t', t' ∈ items -> cache st !! t' = Some d -> t' = t) ->
      defers (map_resolve (tr <$> items) (length pre) (pre ++ items) st).2 !! d
      = Some (Fulfilled [tr t])).
Proof.
  revert pre st. induction items as [|x rest IH]; intros pre st Hin Hc.
  { by apply elem_of_nil in Hin. }
  rewrite fmap_cons, map_resolve_cons. simpl.
  replace (pre ++ x :: rest) with ((pre ++ [x]) ++ rest) by (by rewrite <- app_assoc).
  replace (S (length pre)) with (length (pre ++ [x])) by (rewrite length_app; simpl; lia).
  assert (Hx : ((pre ++ [x]) ++ rest) !! length pre = Some x).
  { rewrite <- app_assoc. simpl. by rewrite list_lookup_middle. }
  set (st1 := (resolve (tr x) (length pre) ((pre ++ [x]) ++ rest) st).2).
  assert (Hc1 : cache st1 = cache st) by apply resolve_cache.
  destruct (cache st !! x) as [dx|] eqn:Hcx.
  - (* x has an entry *)
    destruct (decide (dx = d)) as [->|Hne].
    + (* and it is the deferred of t *)
      split.
      * intros [s Hs].
        assert (exists v, defers st1 !! d = Some (Fulfilled v)) as [v Hv].
        { destruct s as [|old].
          - exists [tr x]. by eapply resolve_pending.
          - exists old. by apply resolve_keeps. }
        exists v. by apply map_resolve_keeps.
      * intros Hp Huniq. assert (x = t) as -> by (apply Huniq; [left|done]).
        apply map_resolve_keeps. by eapply resolve_pending.
    + (* and it is another deferred *)
      assert (Hd : defers st1 !! d = defers st !! d).
      { unfold st1, resolve. rewrite Hx, Hcx. simpl. by apply defer_resolve_other. }
      apply elem_of_cons in Hin as [->|Hin]; [congruence|].
      destruct (IH (pre ++ [x]) st1 Hin) as [IH1 IH2]; [by rewrite Hc1|].
      split.
      * intros Hs. apply IH1. by rewrite Hd.
      * intros Hp Huniq. apply IH2; [by rewrite Hd|].
        intros t' Ht'. rewrite Hc1. intros Hc'. apply Huniq; [by right|done].
  - (* x has no entry *)
    assert (Hst : st1 = st) by (by eapply resolve_no_entry).
    apply elem_of_cons in Hin as [->|Hin]; [congruence|].
    rewrite Hst. destruct (IH (pre ++ [x]) st Hin Hc) as [IH1 IH2].
    split; [done|]. intros Hp Huniq. apply IH2; [done|].
    intros t' Ht'. apply Huniq. by right.
Qed.

(** Echoing a batch is answering each text with itself. *)
Lemma map_resolve_echo items st t d :
  t ∈ items -> cache st !! t = Some d ->
  (is_Some (defers st !! d) ->
     exists value, defers (map_resolve items 0 items st).2 !! d = Some (Fulfilled value))
  /\ (defers st !! d = Some Pending ->
      (forall t', t' ∈ items -> cache st !! t' = Some d -> t' = t) ->
      defers (map_resolve items 0 items st).2 !! d = Some (Fulfilled [t])).
Proof.
  intros Hin Hc. pose proof (map_resolve_answers id [] items st t d Hin Hc) as H.
  by rewrite list_fmap_id in H.
Qed.

(** C7: in dry-run mode the action returned by the requester for a batch
    of texts returns exactly the input texts, unchanged and in the same
    order; it makes no backend call (whatever the backend would answer)
    and leaves cache, statistics, warnings and batches alone; for each
    text of the batch that has a cache entry, the deferred stored there
    is fulfilled afterwards, and with the one-element list holding the
    text itself when it was pending and is the entry of that text only; a
    deferred fulfilled earlier keeps its value, and a deferred that is the
    entry of no text of the batch is not touched. *)
Theorem dry_run_action_echoes (client : nat -> list string -> Response)
    (texts : list string) (st : Run) :
  (action true client texts st).1 = Resolved texts
  /\ calls (action true client texts st).2 = calls st
  /\ same_but_defers st (action true client texts st).2
  /\ (forall t d, t ∈ texts -> cache st !! t = Some d -> is_Some (defers st !! d) ->
        exists value, defers (action true client texts st).2 !! d = Some (Fulfilled value))
  /\ (forall t d, t ∈ texts -> cache st !! t = Some d -> defers st !! d = Some Pending ->
        (forall t', t' ∈ texts -> cache st !! t' = Some d -> t' = t) ->
        defers (action true client texts st).2 !! d = Some (Fulfilled [t]))
  /\ (forall d old, defers st !! d = Some (Fulfilled old) ->
        defers (action true client texts st).2 !! d = Some (Fulfilled old))
  /\ (forall d, (forall t, t ∈ texts -> cache st !! t <> Some d) ->
        defers (action true client texts st).2 !! d = defers st !! d).
Proof.
  assert (E : action true client texts st
              = (Resolved texts, (map_resolve texts 0 texts st).2)).
  { unfold action. pose proof (map_resolve_fst texts 0 texts st) as Hf.
    destruct (map_resolve texts 0 texts st) as [out st1]. simpl in *. by subst. }
  rewrite E. simpl.
  pose proof (map_resolve_frame texts 0 texts st) as Hframe.
  split; [done|]. split; [apply Hframe|]. split; [done|].
  split; [|split; [|split]].
  - intros t d Hin Hc Hs. by apply (map_resolve_echo texts st t d).
  - intros t d Hin Hc Hp Hu. by apply (map_resolve_echo texts st t d).
  - intros d old. apply map_resolve_keeps.
  - intros d. apply map_resolve_other.
Qed.

(** ** Accounting *)

Lemma bytes_app texts1 texts2 : bytes (texts1 ++ texts2) = bytes texts1 + bytes texts2.
Proof.
  induction texts1 as [|t rest IH]; simpl; [lia|].
  unfold bytes in *. simpl. lia.
Qed.

Lemma bytes_sum texts : bytes texts = foldr Z.add 0 (text_length <$> texts).
Proof.
  induction texts as [|t rest IH]; [done|].
  unfold bytes in *. simpl. by rewrite IH.
Qed.

Lemma bytes_nonneg texts : 0 <= bytes texts.
Proof.
  induction texts as [|t rest IH]; [done|].
  unfold bytes, text_length in *. simpl. lia.
Qed.



(** ** Per-file translator *)

(** Sample collaborators, for the examples: the extension is what follows
    the last dot of the path, paths are joined with a slash, a file holds
    what [sample_files] says, and every line of a document is a unit. *)
Fixpoint sample_extname (path : string) : string :=
  match path with
  | EmptyString => ""
  | String c rest =>
      match sample_extname rest with
      | EmptyString => if bool_decide (String c EmptyString = ".") then path else ""
      | ext => ext
      end
  end.

Definition sample_resolve (root path : string) : string := root +:+ "/" +:+ path.
Definition sample_dirname (path : string) : string := path +:+ "/..".

Definition sample_files (path : string) : option string :=
  if bool_decide (path = "in/empty.md") then Some ""
  else if bool_decide (path = "in/blank.md") then Some "<!-- -->"
  else if bool_decide (path = "in/page.md") then Some "Hello"
  else None.

Definition sample_extract (content : string) : list string * unit :=
  (if bool_decide (content = "<!-- -->") then [] else [content], tt).

Definition sample_compose (skeleton : unit) (parts : list string) : string :=
  String.concat "" parts.

Definition sample_translator (dryRun : bool) (client : nat -> list string -> Response) :=
  translator unit sample_extname sample_resolve sample_dirname sample_files
             sample_extract sample_compose "in" "out" dryRun client.

Section translator_facts.
Variable Skeleton : Type.
Variable extname : string -> string.
Variable path_resolve : string -> string -> string.
Variable dirname : string -> string.
Variable loadFile : string -> option string.
Variable extract : string -> list string * Skeleton.
Variable compose : Skeleton -> list string -> string.
Variables input output : string.
Variable dryRun : bool.
Variable client : nat -> list string -> Response.

Local Abbreviation translate :=
  (translator Skeleton extname path_resolve dirname loadFile extract compose
              input output dryRun client).

(** C10: a path whose extension is none of [.yaml], [.json], [.md] makes
    the translator return at once: no file is loaded, no directory is
    made, nothing is written, and the state of the run is untouched. *)
Theorem translator_skips_other_extensions (path : string) (st : Run) :
  extname path ∉ supported ->
  translate path st = (Returned, [], st).
Proof.
  intros Hext. unfold translator.
  by rewrite bool_decide_eq_false_2.
Qed.

(** C8: for a path with a supported extension, if the loaded content is
    empty or absent the translator makes the output directory, writes the
    content through unchanged and returns: nothing is extracted and the
    splitter is not called; if the content is not empty and extraction
    yields no unit, the translator writes the original content through
    unchanged and returns without calling the splitter. *)
Theorem translator_writes_through (path : string) (st : Run) :
  extname path ∈ supported ->
  let inputPath := path_resolve input path in
  let outputPath := path_resolve output path in
  let content := loadFile inputPath in
  (content = None \/ content = Some "" ->
     translate path st
     = (Returned,
        [Loaded inputPath; DirectoryMade (dirname outputPath);
         Dumped outputPath content], st))
  /\ (forall text, content = Some text -> text <> "" -> (extract text).1 = [] ->
        translate path st
        = (Returned,
           [Loaded inputPath; DirectoryMade (dirname outputPath);
            Extracted text; Dumped outputPath (Some text)], st)).
Proof.
  intros Hext inputPath outputPath content. unfold translator.
  rewrite bool_decide_eq_true_2 by done. simpl.
  fold inputPath outputPath content. split.
  - intros [Hc|Hc]; rewrite Hc; reflexivity.
  - intros text Hc Hne Hu. rewrite Hc. simpl.
    rewrite bool_decide_eq_false_2 by done.
    destruct (extract text) as [units skeleton]. simpl in Hu. subst units.
    reflexivity.
Qed.

End translator_facts.

(** A text file is skipped. *)
Lemma translator_skips_other_extensions_witness :
  (sample_extname "notes/readme.txt" ∉ supported) /\
  sample_translator true (fun _ ts => Translations ts) "notes/readme.txt" initial
  = (Returned, [], initial).
Proof.
  assert (H : sample_extname "notes/readme.txt" ∉ supported).
  { vm_compute. intros H. repeat (apply elem_of_cons in H as [H|H]; [discriminate H|]).
    by apply elem_of_nil in H. }
  split; [exact H|].
  exact (translator_skips_other_extensions unit sample_extname sample_resolve
           sample_dirname sample_files sample_extract sample_compose "in" "out"
           true (fun _ ts => Translations ts) "notes/readme.txt" initial H).
Defined.

(** An empty document is written through. *)
Lemma translator_writes_through_witness :
  (sample_extname "empty.md" ∈ supported) /\
  sample_translator true (fun _ ts => Translations ts) "empty.md" initial
  = (Returned,
     [Loaded "in/empty.md"; DirectoryMade "out/empty.md/..";
      Dumped "out/empty.md" (Some "")], initial).
Proof.
  assert (H : sample_extname "empty.md" ∈ supported).
  { vm_compute. do 2 right. left. }
  split; [exact H|].
  exact (proj1 (translator_writes_through unit sample_extname sample_resolve
           sample_dirname sample_files sample_extract sample_compose "in" "out"
           true (fun _ ts => Translations ts) "empty.md" initial H) (or_intror eq_refl)).
Defined.

(** The second half of the write-through property on a sample: a document
    with content and no unit. *)
Example translator_no_units :
  sample_translator true (fun _ ts => Translations ts) "blank.md" initial
  = (Returned,
     [Loaded "in/blank.md"; DirectoryMade "out/blank.md/..";
      Extracted "<!-- -->"; Dumped "out/blank.md" (Some "<!-- -->")], initial).
Proof. reflexivity. Qed.

(** A document with one unit, start to end, in dry-run mode. *)
Example translator_one_unit :
  (sample_translator true (fun _ ts => Translations ts) "page.md" initial).1
  = (Returned,
     [Loaded "in/page.md"; DirectoryMade "out/page.md/..";
      Extracted "Hello"; SplitCalled "page.md" ["Hello"]; Composed ["Hello"];
      Dumped "out/page.md" (Some "Hello")]).
Proof. reflexivity. Qed.

(** ** Splitter *)

(** *** What starting a batch changes *)

(** Running actions, once or with retries, only settles deferred values
    and calls the backend: cache, statistics, warnings and batches stay,
    no deferred is added, and a fulfilled one keeps its value. *)
Definition settles (st st' : Run) : Prop :=
  cache st' = cache st /\ stat st' = stat st /\ warnings st' = warnings st
  /\ batches st' = batches st /\ length (defers st') = length (defers st)
  /\ (forall d old, defers st !! d = Some (Fulfilled old) ->
        defers st' !! d = Some (Fulfilled old)).

Global Instance settles_refl : Reflexive settles.
Proof. intros st. by repeat split. Qed.

Global Instance settles_trans : Transitive settles.
Proof.
  intros s1 s2 s3 (?&?&?&?&?&K1) (?&?&?&?&?&K2).
  repeat split; try congruence. intros d old Hd. by apply K2, K1.
Qed.

Lemma map_resolve_settles items index texts st :
  settles st (map_resolve items index texts st).2.
Proof.
  destruct (map_resolve_frame items index texts st) as (?&?&?&?&?&?).
  repeat split; try done. intros d old. apply map_resolve_keeps.
Qed.

Lemma action_settles dryRun client texts st :
  settles st (action dryRun client texts st).2.
Proof.
  unfold action. destruct dryRun.
  - pose proof (map_resolve_settles texts 0 texts st) as H.
    by destruct (map_resolve texts 0 texts st).
  - destruct (client _ _) as [ts|msg].
    + pose proof (map_resolve_settles ts 0 texts (set_calls (calls st ++ [texts]) st)) as H.
      by destruct (map_resolve ts 0 texts _).
    + by repeat split.
Qed.

Lemma retryAttempt_preserves {State : Type} (R : relation State)
    `{!Reflexive R} `{!Transitive R}
    (interval : Z -> Z) (task : State -> Outcome * State) :
  (forall s, R s (task s).2) ->
  forall remaining attempt s,
    R s (Retry.retryAttempt interval task remaining attempt s).2.
Proof.
  intros Htask. induction remaining as [|n IH]; intros attempt s.
  - rewrite retryAttempt_last. apply Htask.
  - destruct (task s) as [[v|e] s1] eqn:E.
    + rewrite (retryAttempt_resolved _ _ _ _ _ v) by (by rewrite E). apply Htask.
    + rewrite retryAttempt_rejected by (by rewrite E). simpl.
      transitivity (task s).2; [apply Htask|apply IH].
Qed.

Lemma backoff_settles dryRun client texts st :
  settles st (backoff (action dryRun client texts) st).2.
Proof.
  unfold backoff, Retry.retry.
  apply (retryAttempt_preserves settles); intros s; apply action_settles.
Qed.

Lemma action_dry_run client texts st :
  action true client texts st = (Resolved texts, (map_resolve texts 0 texts st).2).
Proof.
  unfold action. pose proof (map_resolve_fst texts 0 texts st) as Hf.
  destruct (map_resolve texts 0 texts st) as [out st1]. simpl in *. by subst.
Qed.

(** In dry-run mode the first attempt succeeds, so there is no retry. *)
Lemma backoff_dry_run client texts st :
  backoff (action true client texts) st
  = ([Invoked], Resolved texts, (map_resolve texts 0 texts st).2).
Proof.
  unfold backoff, Retry.retry.
  rewrite (retryAttempt_resolved _ _ _ _ _ texts); by rewrite action_dry_run.
Qed.

Section splitter_facts.
Variable dryRun : bool.
Variable client : nat -> list string -> Response.

Local Abbreviation dispatch' := (dispatch dryRun client).
Local Abbreviation step := (splitter_step dryRun client).

Lemma dispatch_promises lp :
  promises (dispatch' lp) = promises lp ++ [BackoffPromise (length (batches (run lp)))].
Proof.
  unfold dispatch, request.
  set (st1 := set_stat _ (set_stat _ _)).
  pose proof (backoff_settles dryRun client (buffer lp) st1) as (_&_&_&Hb&_).
  destruct (backoff _ st1) as [[trace out] st2]. simpl in *. by rewrite Hb.
Qed.

Lemma dispatch_buffer lp :
  buffer (dispatch' lp) = buffer lp /\ bufferSize (dispatch' lp) = bufferSize lp.
Proof.
  unfold dispatch, request.
  by destruct (backoff _ _) as [[trace out] st2].
Qed.

(** The state after a batch was started. *)
Lemma dispatch_run lp :
  cache (run (dispatch' lp)) = cache (run lp)
  /\ formed (run (dispatch' lp)) = formed (run lp) ++ [buffer lp]
  /\ stat_bytes (stat (run (dispatch' lp)))
     = stat_bytes (stat (run lp)) + bytes (buffer lp)
  /\ stat_chunks (stat (run (dispatch' lp))) = stat_chunks (stat (run lp)) + 1
  /\ warnings (run (dispatch' lp)) = warnings (run lp)
  /\ length (defers (run (dispatch' lp))) = length (defers (run lp))
  /\ (forall d old, defers (run lp) !! d = Some (Fulfilled old) ->
        defers (run (dispatch' lp)) !! d = Some (Fulfilled old)).
Proof.
  unfold dispatch, request.
  set (st1 := set_stat _ (set_stat _ _)).
  pose proof (backoff_settles dryRun client (buffer lp) st1) as (Hc&Hs&Hw&Hb&Hl&Hk).
  destruct (backoff _ st1) as [[trace out] st2]. simpl in *.
  rewrite Hc, Hs, Hw, Hl. repeat split; try done.
  unfold formed. simpl. rewrite fmap_app, Hb. done.
Qed.

(** *** The invariant of the loop *)

(** What holds of the shared state together with the buffer of the
    invocation under way: cached texts are below the limit and point to
    distinct deferred objects of the heap; [bufferSize] is the size of the
    buffer and is within the limit, as is every batch formed; the texts
    of the batches and of the buffer are pairwise distinct and cached. *)
Record inv (st : Run) (buf : list string) (size : Z) : Prop := {
  inv_small : forall t d, cache st !! t = Some d -> text_length t < BYTES_LIMIT;
  inv_heap : forall t d, cache st !! t = Some d -> (d < length (defers st))%nat;
  inv_inj : forall t t' d, cache st !! t = Some d -> cache st !! t' = Some d -> t = t';
  inv_size : size = bytes buf;
  inv_room : size <= BYTES_LIMIT;
  inv_bounded : forall batch, batch ∈ formed st -> bytes batch <= BYTES_LIMIT;
  inv_cached : forall t, t ∈ concat (formed st) ++ buf -> is_Some (cache st !! t);
  inv_nodup : NoDup (concat (formed st) ++ buf)
}.

Definition loop_inv (lp : Loop) : Prop := inv (run lp) (buffer lp) (bufferSize lp).

Lemma inv_initial : inv initial [] 0.
Proof.
  split; simpl.
  - intros t d H. by rewrite lookup_empty in H.
  - intros t d H. by rewrite lookup_empty in H.
  - intros t t' d H. by rewrite lookup_empty in H.
  - done.
  - unfold BYTES_LIMIT. lia.
  - intros batch H. by apply elem_of_nil in H.
  - intros t H. by apply elem_of_nil in H.
  - constructor.
Qed.

(** Dropping the buffer keeps the invariant of the state. *)
Lemma inv_drop_buffer st buf size : inv st buf size -> inv st [] 0.
Proof.
  intros [H1 H2 H3 H4 H5 H6 H7 H8]. split.
  - exact H1.
  - exact H2.
  - exact H3.
  - reflexivity.
  - unfold BYTES_LIMIT. lia.
  - exact H6.
  - intros t Ht. apply H7. rewrite app_nil_r in Ht. apply elem_of_app. by left.
  - rewrite app_nil_r. by apply NoDup_app in H8 as [? _].
Qed.

Lemma dispatch_inv lp :
  loop_inv lp -> inv (run (dispatch' lp)) [] 0.
Proof.
  intros [H1 H2 H3 H4 H5 H6 H7 H8].
  destruct (dispatch_run lp) as (Hc&Hf&_&_&_&Hl&_).
  assert (Hflat : concat (formed (run lp) ++ [buffer lp]) ++ []
                  = concat (formed (run lp)) ++ buffer lp).
  { rewrite concat_app. simpl. by rewrite !app_nil_r. }
  split; rewrite ?Hc, ?Hf, ?Hl, ?Hflat.
  - exact H1.
  - exact H2.
  - exact H3.
  - reflexivity.
  - unfold BYTES_LIMIT. lia.
  - intros batch [Hb|Hb%list_elem_of_singleton]%elem_of_app; [by apply H6|].
    subst batch. by rewrite <- H4.
  - exact H7.
  - exact H8.
Qed.

Lemma release_inv lp : loop_inv lp -> loop_inv (release dryRun client lp).
Proof. intros H. unfold loop_inv, release. simpl. by apply dispatch_inv. Qed.

(** Reserving a cache entry for a text that has none and fits. *)
Lemma reserve_inv st buf size text :
  inv st buf size ->
  cache st !! text = None ->
  text_length text < BYTES_LIMIT ->
  size + text_length text <= BYTES_LIMIT ->
  inv (set_cache (<[text := length (defers st)]> (cache st))
         (set_defers (defers st ++ [Pending]) st))
      (buf ++ [text]) (size + text_length text).
Proof.
  intros [H1 H2 H3 H4 H5 H6 H7 H8] Hnone Hsmall Hroom.
  split; simpl.
  - intros t d. rewrite lookup_insert. case_decide; [by intros; subst|apply H1].
  - intros t d. rewrite lookup_insert, length_app. simpl.
    case_decide; [intros [= <-]; lia|]. intros Hd%H2. lia.
  - intros t t' d. rewrite !lookup_insert.
    repeat case_decide; subst; try done.
    + intros [= <-] Hd%H2. lia.
    + intros Hd%H2 [= <-]. lia.
    + apply H3.
  - rewrite bytes_app. unfold bytes at 2. simpl. lia.
  - exact Hroom.
  - exact H6.
  - intros t. rewrite app_assoc. intros [Ht|Ht%list_elem_of_singleton]%elem_of_app.
    + rewrite lookup_insert. case_decide; [done|]. by apply H7.
    + subst. by rewrite lookup_insert_eq.
  - rewrite app_assoc. apply NoDup_app. split; [done|]. split.
    + intros t Ht ->%list_elem_of_singleton. apply H7 in Ht as [d Hd]. congruence.
    + apply NoDup_singleton.
Qed.

(** One turn of the loop keeps the invariant. *)
Lemma step_inv path lp text : loop_inv lp -> loop_inv (step path lp text).
Proof.
  intros Hinv. unfold splitter_step.
  destruct (cache (run lp) !! text) as [d|] eqn:Hc; [done|].
  destruct (text_length text >=? BYTES_LIMIT) eqn:Hbig.
  { destruct Hinv. by split. }
  rewrite Z.geb_leb in Hbig. apply Z.leb_gt in Hbig.
  destruct (bufferSize lp + text_length text >? BYTES_LIMIT) eqn:Hfull.
  - pose proof (release_inv lp Hinv) as Hrel. unfold loop_inv in *. simpl in *.
    apply (reserve_inv _ [] 0); try done.
    + by destruct (dispatch_run lp) as (->&_).
    + lia.
  - unfold loop_inv in *. simpl. apply reserve_inv; try done.
    rewrite Z.gtb_ltb in Hfull. by apply Z.ltb_ge in Hfull.
Qed.

Lemma loop_keeps_inv path texts lp :
  loop_inv lp -> loop_inv (foldl (step path) lp texts).
Proof.
  revert lp. induction texts as [|t rest IH]; intros lp H; [done|].
  simpl. apply IH. by apply step_inv.
Qed.

(** An invocation takes a good state to a good state. *)
Lemma splitter_inv path texts st :
  inv st [] 0 -> inv (splitter dryRun client path texts st).2 [] 0.
Proof.
  intros H. unfold splitter.
  pose proof (loop_keeps_inv path texts
    {| promises := []; buffer := []; bufferSize := 0; run := st |} H) as Hloop.
  fold (splitter_loop dryRun client path texts st) in Hloop.
  destruct (bufferSize _ =? 0); simpl.
  - by eapply inv_drop_buffer.
  - by apply dispatch_inv.
Qed.

Lemma language_run_inv files : inv (language_run dryRun client files) [] 0.
Proof.
  unfold language_run.
  assert (G : forall st, inv st [] 0 ->
     inv (foldl (fun st file => (splitter dryRun client file.1 file.2 st).2) st files) [] 0).
  { induction files as [|f rest IH]; intros st H; [done|].
    simpl. apply IH. by apply splitter_inv. }
  apply G, inv_initial.
Qed.

(** *** The three branches of a turn *)

Lemma step_hit path lp text d :
  cache (run lp) !! text = Some d ->
  step path lp text
  = {| promises := promises lp ++ [DeferPromise d]; buffer := buffer lp;
       bufferSize := bufferSize lp; run := run lp |}.
Proof. intros H. unfold splitter_step. by rewrite H. Qed.

Lemma step_too_big path lp text :
  cache (run lp) !! text = None -> BYTES_LIMIT <= text_length text ->
  step path lp text
  = {| promises := promises lp ++ [PromiseResolve [text]]; buffer := buffer lp;
       bufferSize := bufferSize lp;
       run := set_warnings (warnings (run lp) ++ [(path, too_big)]) (run lp) |}.
Proof.
  intros H Hbig. unfold splitter_step. rewrite H.
  destruct (text_length text >=? BYTES_LIMIT) eqn:E; [done|].
  rewrite Z.geb_leb in E. apply Z.leb_gt in E. lia.
Qed.

(** The loop variables once room was made for a text: the buffer is
    released first when the text does not fit. *)
Definition make_room (lp : Loop) (text : string) : Loop :=
  if bufferSize lp + text_length text >? BYTES_LIMIT
  then release dryRun client lp else lp.

Lemma step_fresh path lp text :
  cache (run lp) !! text = None -> text_length text < BYTES_LIMIT ->
  step path lp text
  = {| promises := promises (make_room lp text);
       buffer := buffer (make_room lp text) ++ [text];
       bufferSize := bufferSize (make_room lp text) + text_length text;
       run := set_cache (<[text := length (defers (run (make_room lp text)))]>
                           (cache (run (make_room lp text))))
                (set_defers (defers (run (make_room lp text)) ++ [Pending])
                            (run (make_room lp text))) |}.
Proof.
  intros H Hsmall. unfold splitter_step. rewrite H.
  destruct (text_length text >=? BYTES_LIMIT) eqn:E; [|done].
  rewrite Z.geb_leb in E. apply Z.leb_le in E. lia.
Qed.

(** How often a value occurs in a list. *)
Definition occurrences {A : Type} `{EqDecision A} (x : A) (l : list A) : nat :=
  length (filter (fun y => y = x) l).

Lemma occurrences_snoc {A : Type} `{EqDecision A} (x y : A) (l : list A) :
  occurrences x (l ++ [y])
  = (occurrences x l + if decide (y = x) then 1 else 0)%nat.
Proof.
  unfold occurrences. rewrite filter_app, length_app. f_equal.
  rewrite filter_cons. by case_decide.
Qed.

Lemma occurrences_cons {A : Type} `{EqDecision A} (x y : A) (l : list A) :
  occurrences x (y :: l)
  = ((if decide (y = x) then 1 else 0) + occurrences x l)%nat.
Proof. unfold occurrences. rewrite filter_cons. by case_decide. Qed.

(** The units at or above the limit. *)
Definition oversized (texts : list string) : list string :=
  filter (fun t => BYTES_LIMIT <= text_length t) texts.

(** *** Oversized units *)

Lemma release_warnings lp :
  warnings (run (release dryRun client lp)) = warnings (run lp).
Proof. unfold release. simpl. by destruct (dispatch_run lp) as (_&_&_&_&->&_). Qed.

Lemma release_promises lp :
  promises (release dryRun client lp)
  = promises lp ++ [BackoffPromise (length (batches (run lp)))].
Proof. unfold release. simpl. apply dispatch_promises. Qed.

(** Through the loop every oversized unit leaves one warning and one
    promise already resolved with the unit itself. *)
Lemma loop_oversized path texts lp :
  loop_inv lp ->
  warnings (run (foldl (step path) lp texts))
  = warnings (run lp) ++ replicate (length (oversized texts)) (path, too_big)
  /\ forall t, BYTES_LIMIT <= text_length t ->
       occurrences (PromiseResolve [t]) (promises (foldl (step path) lp texts))
       = (occurrences (PromiseResolve [t]) (promises lp) + occurrences t texts)%nat.
Proof.
  revert lp. induction texts as [|x rest IH]; intros lp Hinv.
  { simpl. rewrite app_nil_r. split; [done|]. intros t _. unfold occurrences at 3.
    simpl. lia. }
  simpl. destruct (IH (step path lp x) (step_inv path lp x Hinv)) as [IHw IHp].
  rewrite IHw. unfold oversized. rewrite filter_cons.
  destruct (cache (run lp) !! x) as [d|] eqn:Hc.
  - (* a hit: below the limit *)
    pose proof (inv_small _ _ _ Hinv x d Hc) as Hsmall.
    rewrite decide_False by lia. rewrite (step_hit _ _ _ d) in * by done. simpl.
    split; [done|]. intros t Ht. rewrite IHp by done. simpl.
    rewrite occurrences_snoc, occurrences_cons.
    rewrite decide_False by done.
    rewrite (decide_False (P := x = t)) by (intros ->; lia). lia.
  - destruct (decide (BYTES_LIMIT <= text_length x)) as [Hbig|Hsmall].
    + rewrite step_too_big in * by done. simpl. split.
      * by rewrite <- app_assoc.
      * intros t Ht. rewrite IHp by done. simpl.
        rewrite occurrences_snoc, occurrences_cons.
        destruct (decide (x = t)) as [->|Hne].
        -- rewrite decide_True by done. lia.
        -- rewrite decide_False by congruence. lia.
    + rewrite (step_fresh path lp x Hc ltac:(lia)) in *. simpl. split.
      * f_equal. unfold make_room.
        destruct (_ >? _); [apply release_warnings|done].
      * intros t Ht. rewrite IHp by done. simpl. rewrite occurrences_cons.
        rewrite (decide_False (P := x = t)) by (intros ->; lia).
        unfold make_room. destruct (_ >? _); [|lia].
        rewrite release_promises, occurrences_snoc.
        rewrite decide_False by done. lia.
Qed.

(** C3 (amended): in any language run every batch handed to the requester
    has texts whose lengths ([text.length], in UTF-16 code units, not in
    bytes) sum to at most 10000. A unit of length 10000 or more is in no
    batch and has no cache entry; when the splitter meets
    one, it logs one warning for it and pushes one promise that is already
    resolved with the unit itself, untranslated, and this is all that
    such units cause: as many warnings and resolved promises as there are
    occurrences. *)
Theorem batches_within_limit (files : list (string * list string)) :
  (forall batch, batch ∈ formed (language_run dryRun client files) ->
     foldr Z.add 0 (text_length <$> batch) <= 10000)
  /\ (forall t, 10000 <= text_length t ->
        cache (language_run dryRun client files) !! t = None
        /\ t ∉ concat (formed (language_run dryRun client files)))
  /\ (forall path texts,
        warnings (splitter dryRun client path texts (language_run dryRun client files)).2
        = warnings (language_run dryRun client files)
          ++ replicate (length (oversized texts)) (path, too_big)
        /\ forall t, 10000 <= text_length t ->
             occurrences (PromiseResolve [t])
               (splitter dryRun client path texts (language_run dryRun client files)).1
             = occurrences t texts
             /\ await (splitter dryRun client path texts
                         (language_run dryRun client files)).2
                      (PromiseResolve [t]) = Value [t]).
Proof.
  pose proof (language_run_inv files) as Hinv.
  set (st := language_run dryRun client files) in *.
  assert (Hnone : forall t, 10000 <= text_length t -> cache st !! t = None).
  { intros t Hbig. destruct (cache st !! t) as [d|] eqn:Hc; [|done].
    pose proof (inv_small _ _ _ Hinv t d Hc). unfold BYTES_LIMIT in *. lia. }
  split.
  { intros batch Hb. rewrite <- bytes_sum. by apply (inv_bounded _ _ _ Hinv). }
  split.
  - intros t Hbig. split; [by apply Hnone|].
    intros Hin. destruct (inv_cached _ _ _ Hinv t) as [d Hd].
    { apply elem_of_app. by left. }
    rewrite Hnone in Hd; done.
  - intros path texts. unfold splitter.
    destruct (loop_oversized path texts
      {| promises := []; buffer := []; bufferSize := 0; run := st |} Hinv) as [Hw Hp].
    fold (splitter_loop dryRun client path texts st) in Hw, Hp.
    destruct (bufferSize _ =? 0); simpl.
    + split; [done|]. intros t Hbig. by rewrite Hp.
    + destruct (dispatch_run (splitter_loop dryRun client path texts st))
        as (_&_&_&_&->&_).
      split; [done|]. intros t Hbig.
      rewrite dispatch_promises, occurrences_snoc, Hp by done.
      rewrite decide_False by done. simpl. split; [lia|done].
Qed.

(** *** Cache hits *)

Lemma make_room_cache lp text : cache (run (make_room lp text)) = cache (run lp).
Proof.
  unfold make_room. destruct (_ >? _); [|done].
  unfold release. simpl. by destruct (dispatch_run lp) as (->&_).
Qed.

Lemma make_room_defers_length lp text :
  length (defers (run (make_room lp text))) = length (defers (run lp)).
Proof.
  unfold make_room. destruct (_ >? _); [|done].
  unfold release. simpl. by destruct (dispatch_run lp) as (_&_&_&_&_&->&_).
Qed.

(** No turn of the loop removes or replaces a cache entry. *)
Lemma step_cache_mono path lp text :
  cache (run lp) ⊆ cache (run (step path lp text)).
Proof.
  unfold splitter_step. destruct (cache (run lp) !! text) as [d|] eqn:Hc; [done|].
  destruct (text_length text >=? BYTES_LIMIT); [done|].
  fold (make_room lp text). simpl. rewrite make_room_cache.
  by apply insert_subseteq.
Qed.

Lemma loop_cache_mono path texts lp :
  cache (run lp) ⊆ cache (run (foldl (step path) lp texts)).
Proof.
  revert lp. induction texts as [|x rest IH]; intros lp; [done|].
  simpl. etransitivity; [apply step_cache_mono|apply IH].
Qed.

Lemma splitter_cache_mono path texts st :
  cache st ⊆ cache (splitter dryRun client path texts st).2.
Proof.
  unfold splitter. pose proof (loop_cache_mono path texts
    {| promises := []; buffer := []; bufferSize := 0; run := st |}) as H.
  fold (splitter_loop dryRun client path texts st) in H. simpl in H.
  destruct (bufferSize _ =? 0); simpl; [done|].
  by destruct (dispatch_run (splitter_loop dryRun client path texts st)) as (->&_).
Qed.

(** A text that is cached when the loop starts is answered, at each of its
    occurrences, by the promise of the deferred stored for it. *)
Lemma loop_hits path texts lp t d :
  loop_inv lp -> cache (run lp) !! t = Some d ->
  occurrences (DeferPromise d) (promises (foldl (step path) lp texts))
  = (occurrences (DeferPromise d) (promises lp) + occurrences t texts)%nat.
Proof.
  revert lp. induction texts as [|x rest IH]; intros lp Hinv Ht.
  { simpl. unfold occurrences at 3. simpl. lia. }
  simpl. rewrite IH.
  2: by apply step_inv.
  2: { eapply lookup_weaken; [exact Ht|apply step_cache_mono]. }
  rewrite occurrences_cons.
  destruct (cache (run lp) !! x) as [d'|] eqn:Hc.
  - rewrite (step_hit _ _ _ d') by done. simpl. rewrite occurrences_snoc.
    destruct (decide (x = t)) as [->|Hne].
    + assert (d' = d) as -> by congruence. rewrite decide_True by done. lia.
    + rewrite decide_False; [lia|]. intros [= ->]. apply Hne.
      by apply (inv_inj _ _ _ Hinv x t d).
  - rewrite (decide_False (P := x = t)) by congruence.
    destruct (decide (BYTES_LIMIT <= text_length x)) as [Hbig|Hsmall].
    + rewrite step_too_big by done. simpl. rewrite occurrences_snoc.
      rewrite decide_False by done. lia.
    + rewrite (step_fresh path lp x Hc ltac:(lia)). simpl.
      unfold make_room. destruct (_ >? _); [|lia].
      rewrite release_promises, occurrences_snoc.
      rewrite decide_False by done. lia.
Qed.

Lemma formed_reserve c h st : formed (set_cache c (set_defers h st)) = formed st.
Proof. done. Qed.

(** The batches formed through the loop, and its buffer, hold texts that
    were in the buffer at the start or were met without a cache entry. *)
Lemma loop_formed path texts lp :
  exists new,
    formed (run (foldl (step path) lp texts)) = formed (run lp) ++ new
    /\ forall t, t ∈ concat new ++ buffer (foldl (step path) lp texts) ->
         t ∈ buffer lp \/ (t ∈ texts /\ cache (run lp) !! t = None).
Proof.
  revert lp. induction texts as [|x rest IH]; intros lp.
  { exists []. rewrite app_nil_r. split; [done|]. simpl. by left. }
  simpl. destruct (IH (step path lp x)) as (new & Hf & Hin). clear IH.
  assert (Hfrom : forall t, t ∈ rest /\ cache (run (step path lp x)) !! t = None ->
                  t ∈ x :: rest /\ cache (run lp) !! t = None).
  { intros t [Ht Hn]. split; [by right|].
    destruct (cache (run lp) !! t) as [d|] eqn:E; [|done].
    pose proof (lookup_weaken _ _ _ _ E (step_cache_mono path lp x)) as E'.
    congruence. }
  destruct (cache (run lp) !! x) as [d|] eqn:Hc.
  { rewrite (step_hit _ _ _ d) in * by done. simpl in *. exists new.
    split; [done|]. intros t [?|?]%Hin; [by left|right; by apply Hfrom]. }
  destruct (decide (BYTES_LIMIT <= text_length x)) as [Hbig|Hsmall].
  { rewrite step_too_big in * by done. simpl in *. exists new.
    split; [done|]. intros t [?|?]%Hin; [by left|right; by apply Hfrom]. }
  rewrite (step_fresh path lp x Hc ltac:(lia)) in *. simpl in *.
  assert (Hx : x ∈ x :: rest /\ cache (run lp) !! x = None) by (split; [left|done]).
  rewrite formed_reserve in Hf.
  unfold make_room in *. destruct (_ >? _).
  - unfold release in *. simpl in *.
    destruct (dispatch_run lp) as (_&Hd&_). rewrite Hd, <- app_assoc in Hf.
    exists ([buffer lp] ++ new). split; [done|].
    intros t. rewrite concat_app. simpl. rewrite app_nil_r, <- app_assoc.
    intros [Ht|Ht]%elem_of_app; [by left|].
    apply Hin in Ht as [->%list_elem_of_singleton|Ht]; [by right|right; by apply Hfrom].
  - exists new. split; [done|].
    intros t [[Ht| ->%list_elem_of_singleton]%elem_of_app|Ht]%Hin;
      [by left|by right|right; by apply Hfrom].
Qed.

(** The promises pushed so far only speak of deferred objects that
    exist. *)
Definition promises_known (lp : Loop) : Prop :=
  forall d, DeferPromise d ∈ promises lp -> (d < length (defers (run lp)))%nat.

Lemma step_promises_known path lp text :
  loop_inv lp -> promises_known lp -> promises_known (step path lp text).
Proof.
  intros Hinv Hk d. destruct (cache (run lp) !! text) as [d'|] eqn:Hc.
  { rewrite (step_hit _ _ _ d') by done. simpl.
    intros [Hd|[= ->]%list_elem_of_singleton]%elem_of_app; [by apply Hk|].
    by apply (inv_heap _ _ _ Hinv text). }
  destruct (decide (BYTES_LIMIT <= text_length text)) as [Hbig|Hsmall].
  { rewrite step_too_big by done. simpl.
    intros [Hd|[=]%list_elem_of_singleton]%elem_of_app. by apply Hk. }
  rewrite (step_fresh path lp text Hc ltac:(lia)). simpl.
  rewrite length_app, make_room_defers_length. simpl.
  unfold make_room. destruct (_ >? _).
  - rewrite release_promises.
    intros [Hd%Hk|[=]%list_elem_of_singleton]%elem_of_app. lia.
  - intros Hd%Hk. lia.
Qed.

Lemma occurrences_absent {A : Type} `{EqDecision A} (x : A) (l : list A) :
  x ∉ l -> occurrences x l = 0%nat.
Proof.
  intros H. unfold occurrences. induction l as [|y l IH]; [done|].
  rewrite filter_cons. rewrite decide_False.
  - apply IH. intros Hin. apply H. by right.
  - intros ->. apply H. by left.
Qed.

(** A text met for the first time in the loop gets its cache entry then,
    and each of its later occurrences is answered by the promise of that
    entry. *)
Lemma loop_first_seen path texts lp t :
  loop_inv lp -> promises_known lp ->
  cache (run lp) !! t = None -> text_length t < BYTES_LIMIT -> t ∈ texts ->
  exists d,
    cache (run (foldl (step path) lp texts)) !! t = Some d
    /\ occurrences (DeferPromise d) (promises (foldl (step path) lp texts))
       = (occurrences t texts - 1)%nat.
Proof.
  revert lp. induction texts as [|x rest IH]; intros lp Hinv Hk Hn Hsmall Hin.
  { by apply elem_of_nil in Hin. }
  simpl. destruct (decide (x = t)) as [->|Hne].
  - (* the first occurrence *)
    pose proof (step_inv path lp t Hinv) as Hinv1.
    pose proof (step_promises_known path lp t Hinv Hk) as Hk1.
    assert (Hd : cache (run (step path lp t)) !! t = Some (length (defers (run lp)))).
    { rewrite (step_fresh path lp t Hn Hsmall). simpl.
      by rewrite lookup_insert_eq, make_room_defers_length. }
    exists (length (defers (run lp))). split.
    + eapply lookup_weaken; [exact Hd|apply loop_cache_mono].
    + rewrite (loop_hits path rest _ t _ Hinv1 Hd).
      rewrite occurrences_cons, decide_True by done.
      rewrite occurrences_absent; [lia|].
      rewrite (step_fresh path lp t Hn Hsmall). simpl.
      unfold make_room. destruct (_ >? _).
      * rewrite release_promises.
        intros [Hd'%Hk|[=]%list_elem_of_singleton]%elem_of_app. lia.
      * intros Hd'%Hk. lia.
  - apply elem_of_cons in Hin as [->|Hin]; [done|].
    destruct (IH (step path lp x)) as (d & Hd & Hocc); try done.
    + by apply step_inv.
    + by apply step_promises_known.
    + unfold splitter_step. destruct (cache (run lp) !! x) as [d|] eqn:Hc; [done|].
      destruct (text_length x >=? BYTES_LIMIT); [done|].
      fold (make_room lp x). simpl. rewrite lookup_insert_ne by done.
      by rewrite make_room_cache.
    + exists d. split; [done|]. rewrite Hocc, occurrences_cons.
      by rewrite decide_False.
Qed.

(** *** A language run, invocation after invocation *)

Lemma language_run_snoc files path texts :
  language_run dryRun client (files ++ [(path, texts)])
  = (splitter dryRun client path texts (language_run dryRun client files)).2.
Proof. unfold language_run. by rewrite foldl_app. Qed.

Lemma elem_of_concat {A : Type} (x : A) (ls : list (list A)) :
  x ∈ concat ls <-> exists l, x ∈ l /\ l ∈ ls.
Proof.
  induction ls as [|l ls IH]; simpl.
  - split; [by intros ?%elem_of_nil|]. by intros (l & _ & ?%elem_of_nil).
  - rewrite elem_of_app, IH. split.
    + intros [H|(l' & H1 & H2)]; [exists l; split; [done|left]|].
      exists l'. split; [done|by right].
    + intros (l' & H1 & [->|H2]%elem_of_cons); [by left|right; by exists l'].
Qed.

Lemma splitter_formed path texts st :
  exists new,
    formed (splitter dryRun client path texts st).2 = formed st ++ new
    /\ forall t, t ∈ concat new -> t ∈ texts /\ cache st !! t = None.
Proof.
  unfold splitter.
  destruct (loop_formed path texts
    {| promises := []; buffer := []; bufferSize := 0; run := st |})
    as (new & Hf & Hin).
  fold (splitter_loop dryRun client path texts st) in Hf, Hin. simpl in Hf, Hin.
  assert (Hin' : forall t, t ∈ concat new ++ buffer (splitter_loop dryRun client path texts st)
                   -> t ∈ texts /\ cache st !! t = None).
  { intros t [Ht|Ht]%Hin; [by apply elem_of_nil in Ht|done]. }
  destruct (bufferSize _ =? 0); simpl.
  - exists new. split; [done|]. intros t Ht. apply Hin', elem_of_app. by left.
  - destruct (dispatch_run (splitter_loop dryRun client path texts st)) as (_&->&_).
    exists (new ++ [buffer (splitter_loop dryRun client path texts st)]).
    rewrite Hf, <- app_assoc. split; [done|].
    intros t. rewrite concat_app. simpl. rewrite app_nil_r. apply Hin'.
Qed.

(** C4: within one language run every text is handed to the requester at
    most once: over all the batches formed by any sequence of splitter
    invocations that share the cache, no text occurs twice. A turn of the
    loop that finds a cache entry for its text pushes the promise stored
    there and touches neither the buffer nor the state. So, in a further
    invocation, a text cached by an earlier one is answered at each of its
    occurrences by the stored promise and enters none of the new batches,
    and a text met for the first time is answered by the promise of its new
    entry at every later occurrence. No invocation removes or replaces an
    entry of the cache. *)
Theorem dispatched_at_most_once (files : list (string * list string)) :
  NoDup (concat (formed (language_run dryRun client files)))
  /\ (forall path lp text d,
        cache (run lp) !! text = Some d ->
        splitter_step dryRun client path lp text
        = {| promises := promises lp ++ [DeferPromise d]; buffer := buffer lp;
             bufferSize := bufferSize lp; run := run lp |})
  /\ (forall path texts,
        cache (language_run dryRun client files)
          ⊆ cache (language_run dryRun client (files ++ [(path, texts)]))
        /\ (forall t d,
              cache (language_run dryRun client files) !! t = Some d ->
              occurrences (DeferPromise d)
                (splitter dryRun client path texts (language_run dryRun client files)).1
              = occurrences t texts
              /\ forall batch,
                   batch ∈ drop (length (formed (language_run dryRun client files)))
                             (formed (language_run dryRun client (files ++ [(path, texts)]))) ->
                   t ∉ batch)
        /\ (forall t,
              t ∈ texts ->
              cache (language_run dryRun client files) !! t = None ->
              text_length t < 10000 ->
              exists d,
                cache (language_run dryRun client (files ++ [(path, texts)])) !! t = Some d
                /\ occurrences (DeferPromise d)
                     (splitter dryRun client path texts (language_run dryRun client files)).1
                   = (occurrences t texts - 1)%nat)).
Proof.
  pose proof (language_run_inv files) as Hinv.
  split.
  { pose proof (inv_nodup _ _ _ Hinv) as H. by rewrite app_nil_r in H. }
  split; [apply step_hit|].
  intros path texts. rewrite language_run_snoc.
  set (st := language_run dryRun client files) in *.
  split; [apply splitter_cache_mono|]. split.
  - intros t d Hc. split.
    + unfold splitter.
      pose proof (loop_hits path texts
        {| promises := []; buffer := []; bufferSize := 0; run := st |} t d Hinv Hc) as H.
      fold (splitter_loop dryRun client path texts st) in H.
      change (occurrences (DeferPromise d) (promises _) + _)%nat
        with (occurrences t texts) in H.
      destruct (bufferSize _ =? 0); simpl; [done|].
      rewrite dispatch_promises, occurrences_snoc, decide_False by done.
      rewrite H. lia.
    + destruct (splitter_formed path texts st) as (new & -> & Hnew).
      rewrite drop_app_length. intros batch Hb Ht.
      destruct (Hnew t) as [_ Hn]; [|congruence].
      apply elem_of_concat. by exists batch.
  - intros t Hin Hn Hsmall. unfold splitter.
    destruct (loop_first_seen path texts
      {| promises := []; buffer := []; bufferSize := 0; run := st |} t)
      as (d & Hd & Hocc); try done.
    { intros d Hd. by apply elem_of_nil in Hd. }
    fold (splitter_loop dryRun client path texts st) in Hd, Hocc.
    exists d. destruct (bufferSize _ =? 0); simpl; [done|]. split.
    + by destruct (dispatch_run (splitter_loop dryRun client path texts st)) as (->&_).
    + rewrite dispatch_promises, occurrences_snoc, decide_False by done.
      rewrite Hocc. lia.
Qed.

(** *** A backend that answers *)

(** Every batch gets its answer at the first attempt, one translation per
    text and position by position, [tr] being the translation of a text;
    in dry-run mode the requester echoes, so [tr] changes nothing. *)
Definition answers (tr : string -> string) : Prop :=
  if dryRun then forall t, tr t = t
  else forall n texts, client n texts = Translations (tr <$> texts).

(** The state in which the action resolves: in live mode the call is on
    record. *)
Definition calling (texts : list string) (st : Run) : Run :=
  if dryRun then st else set_calls (calls st ++ [texts]) st.

Lemma action_answers tr texts st :
  answers tr ->
  action dryRun client texts st
  = (Resolved (tr <$> texts),
     (map_resolve (tr <$> texts) 0 texts (calling texts st)).2).
Proof.
  unfold answers, action, calling. intros Ha. destruct dryRun.
  - assert (E : tr <$> texts = texts).
    { rewrite <- (list_fmap_id texts) at 2. by apply list_fmap_ext. }
    rewrite E. pose proof (map_resolve_fst texts 0 texts st) as Hf.
    destruct (map_resolve texts 0 texts st) as [out st1]. simpl in *. by subst.
  - rewrite Ha.
    pose proof (map_resolve_fst (tr <$> texts) 0 texts
                  (set_calls (calls st ++ [texts]) st)) as Hf.
    destruct (map_resolve (tr <$> texts) 0 texts _) as [out st1]. simpl in *. by subst.
Qed.

Lemma backoff_answers tr texts st :
  answers tr ->
  backoff (action dryRun client texts) st
  = ([Invoked], Resolved (tr <$> texts),
     (map_resolve (tr <$> texts) 0 texts (calling texts st)).2).
Proof.
  intros Ha. unfold backoff, Retry.retry.
  rewrite (retryAttempt_resolved _ _ _ _ _ (tr <$> texts));
    by rewrite (action_answers tr).
Qed.

Lemma dispatch_answers tr lp :
  answers tr ->
  batches (run (dispatch' lp))
  = batches (run lp) ++ [{| batch_texts := buffer lp; batch_trace := [Invoked];
                            batch_outcome := Resolved (tr <$> buffer lp) |}].
Proof.
  intros Ha. unfold dispatch, request.
  set (st1 := set_stat _ (set_stat _ _)).
  rewrite (backoff_answers tr) by done. simpl.
  destruct (map_resolve_frame (tr <$> buffer lp) 0 (buffer lp)
              (calling (buffer lp) st1)) as (_&_&_&_&Hb&_).
  rewrite Hb. unfold calling. by destruct dryRun.
Qed.

Lemma dispatch_fulfils tr lp t d :
  answers tr ->
  t ∈ buffer lp -> cache (run lp) !! t = Some d ->
  defers (run lp) !! d = Some Pending ->
  (forall t', t' ∈ buffer lp -> cache (run lp) !! t' = Some d -> t' = t) ->
  defers (run (dispatch' lp)) !! d = Some (Fulfilled [tr t]).
Proof.
  intros Ha Hin Hc Hp Hu. unfold dispatch, request.
  set (st1 := set_stat _ (set_stat _ _)).
  rewrite (backoff_answers tr) by done. simpl.
  assert (Hcache : cache (calling (buffer lp) st1) = cache (run lp))
    by (unfold calling; by destruct dryRun).
  assert (Hdefers : defers (calling (buffer lp) st1) = defers (run lp))
    by (unfold calling; by destruct dryRun).
  apply (map_resolve_answers tr [] (buffer lp) (calling (buffer lp) st1) t d);
    rewrite ?Hcache, ?Hdefers; done.
Qed.

(** Under such a backend the deferred of every text of a formed batch
    holds the translation of the text, and the deferred of every text
    still in the buffer is pending. *)
Record settled (tr : string -> string) (st : Run) (buf : list string) : Prop := {
  settled_formed : forall t d, t ∈ concat (formed st) -> cache st !! t = Some d ->
                     defers st !! d = Some (Fulfilled [tr t]);
  settled_buffer : forall t d, t ∈ buf -> cache st !! t = Some d ->
                     defers st !! d = Some Pending
}.

Lemma settled_initial tr : settled tr initial [].
Proof. split; intros t d H; by apply elem_of_nil in H. Qed.

Lemma dispatch_settled tr lp :
  answers tr -> loop_inv lp -> settled tr (run lp) (buffer lp) ->
  settled tr (run (dispatch' lp)) [].
Proof.
  intros Ha Hinv [Hf Hb].
  destruct (dispatch_run lp) as (Hc&Hfm&_&_&_&_&Hk).
  split; [|intros t d H; by apply elem_of_nil in H].
  intros t d. rewrite Hc, Hfm, concat_app. simpl. rewrite app_nil_r.
  intros [Ht|Ht]%elem_of_app Hd.
  - apply Hk. by apply Hf.
  - apply (dispatch_fulfils tr lp t d Ha Ht Hd).
    + by apply (Hb t d).
    + intros t' _ Hd'. by apply (inv_inj _ _ _ Hinv t' t d).
Qed.

Lemma reserve_settled tr st buf size text :
  inv st buf size -> settled tr st buf -> cache st !! text = None ->
  settled tr (set_cache (<[text := length (defers st)]> (cache st))
                (set_defers (defers st ++ [Pending]) st))
          (buf ++ [text]).
Proof.
  intros Hinv [Hf Hb] Hn. split; simpl.
  - intros t d Ht. rewrite formed_reserve in Ht.
    assert (t <> text).
    { intros ->. destruct (inv_cached _ _ _ Hinv text) as [? ?]; [|congruence].
      apply elem_of_app. by left. }
    rewrite lookup_insert_ne by done. intros Hd.
    rewrite lookup_app_l by exact (inv_heap _ _ _ Hinv t d Hd). by apply (Hf t d).
  - intros t d [Ht| ->%list_elem_of_singleton]%elem_of_app.
    + assert (t <> text).
      { intros ->. destruct (inv_cached _ _ _ Hinv text) as [? ?]; [|congruence].
        apply elem_of_app. by right. }
      rewrite lookup_insert_ne by done. intros Hd.
      rewrite lookup_app_l by exact (inv_heap _ _ _ Hinv t d Hd). by apply (Hb t d).
    + rewrite lookup_insert_eq. intros [= <-].
      by rewrite list_lookup_middle.
Qed.

Lemma step_settled tr path lp text :
  answers tr -> loop_inv lp -> settled tr (run lp) (buffer lp) ->
  settled tr (run (step path lp text)) (buffer (step path lp text)).
Proof.
  intros Ha Hinv Hs.
  destruct (cache (run lp) !! text) as [d|] eqn:Hc.
  { by rewrite (step_hit _ _ _ d). }
  destruct (decide (BYTES_LIMIT <= text_length text)) as [Hbig|Hsmall].
  { rewrite step_too_big by done. simpl. by destruct Hs. }
  rewrite (step_fresh path lp text Hc ltac:(lia)). simpl.
  unfold make_room. destruct (_ >? _).
  - apply (reserve_settled tr _ _ 0).
    + by apply release_inv.
    + unfold release. simpl. by apply dispatch_settled.
    + unfold release. simpl. by destruct (dispatch_run lp) as (->&_).
  - by apply (reserve_settled tr _ _ (bufferSize lp)).
Qed.

Lemma loop_settled tr path texts lp :
  answers tr -> loop_inv lp -> settled tr (run lp) (buffer lp) ->
  settled tr (run (foldl (step path) lp texts)) (buffer (foldl (step path) lp texts)).
Proof.
  intros Ha. revert lp. induction texts as [|x rest IH]; intros lp Hinv Hs; [done|].
  simpl. apply IH; [by apply step_inv|by apply step_settled].
Qed.

Lemma splitter_settled tr path texts st :
  answers tr -> inv st [] 0 -> settled tr st [] ->
  settled tr (splitter dryRun client path texts st).2 [].
Proof.
  intros Ha Hinv Hs. unfold splitter.
  pose proof (loop_keeps_inv path texts
    {| promises := []; buffer := []; bufferSize := 0; run := st |} Hinv) as Hloop.
  pose proof (loop_settled tr path texts
    {| promises := []; buffer := []; bufferSize := 0; run := st |} Ha Hinv Hs) as Hl.
  fold (splitter_loop dryRun client path texts st) in Hloop, Hl.
  destruct (bufferSize _ =? 0); simpl.
  - destruct Hl as [Hf _]. split; [done|]. intros t d H. by apply elem_of_nil in H.
  - by apply dispatch_settled.
Qed.

Lemma language_run_settled tr files :
  answers tr -> settled tr (language_run dryRun client files) [].
Proof.
  intros Ha. induction files as [|f rest IH] using rev_ind.
  - apply settled_initial.
  - destruct f as [path texts]. rewrite language_run_snoc.
    apply splitter_settled; [done|apply language_run_inv|done].
Qed.

(** *** The order of the promises *)

(** The promise a unit gets when it is not put in the buffer: the promise
    stored in the cache, or a promise resolved with the unit itself. *)
Definition unit_promise (st : Run) (text : string) : Promise :=
  match cache st !! text with
  | Some d => DeferPromise d
  | None => PromiseResolve [text]
  end.

(** What a unit becomes: oversized units pass through untranslated. *)
Definition translated (tr : string -> string) (text : string) : string :=
  if bool_decide (BYTES_LIMIT <= text_length text) then text else tr text.

(** Units that are cached or oversized go through the loop leaving one
    promise each and nothing else but warnings. *)
Lemma loop_prefix path pre lp :
  (forall t, t ∈ pre -> is_Some (cache (run lp) !! t) \/ BYTES_LIMIT <= text_length t) ->
  promises (foldl (step path) lp pre) = promises lp ++ (unit_promise (run lp) <$> pre)
  /\ buffer (foldl (step path) lp pre) = buffer lp
  /\ bufferSize (foldl (step path) lp pre) = bufferSize lp
  /\ cache (run (foldl (step path) lp pre)) = cache (run lp)
  /\ defers (run (foldl (step path) lp pre)) = defers (run lp)
  /\ batches (run (foldl (step path) lp pre)) = batches (run lp).
Proof.
  revert lp. induction pre as [|x rest IH]; intros lp Hpre.
  { simpl. by rewrite app_nil_r. }
  simpl.
  assert (exists lp1, step path lp x = lp1
            /\ promises lp1 = promises lp ++ [unit_promise (run lp) x]
            /\ buffer lp1 = buffer lp /\ bufferSize lp1 = bufferSize lp
            /\ cache (run lp1) = cache (run lp) /\ defers (run lp1) = defers (run lp)
            /\ batches (run lp1) = batches (run lp))
    as (lp1 & -> & Hp & Hb & Hs & Hc & Hd & Hbt).
  { eexists. split; [reflexivity|]. unfold unit_promise.
    destruct (cache (run lp) !! x) as [d|] eqn:Hcx.
    - by rewrite (step_hit _ _ _ d).
    - destruct (Hpre x) as [[d Hd]|Hbig]; [left|congruence|].
      by rewrite step_too_big. }
  destruct (IH lp1) as (IHp & IHb & IHs & IHc & IHd & IHbt).
  { intros t Ht. rewrite Hc. apply Hpre. by right. }
  rewrite IHp, IHb, IHs, IHc, IHd, IHbt, Hp, Hb, Hs, Hc, Hd, Hbt.
  repeat split. rewrite <- app_assoc. simpl. do 2 f_equal.
  apply list_fmap_ext. intros _ t _. unfold unit_promise. by rewrite Hc.
Qed.

Lemma step_keeps path lp text d old :
  defers (run lp) !! d = Some (Fulfilled old) ->
  defers (run (step path lp text)) !! d = Some (Fulfilled old).
Proof.
  intros H. unfold splitter_step.
  destruct (cache (run lp) !! text) as [d'|]; [done|].
  destruct (text_length text >=? BYTES_LIMIT); [done|].
  fold (make_room lp text). simpl. apply lookup_app_l_Some.
  unfold make_room. destruct (_ >? _); [|done].
  unfold release. simpl. by apply (dispatch_run lp).
Qed.

Lemma loop_keeps path texts lp d old :
  defers (run lp) !! d = Some (Fulfilled old) ->
  defers (run (foldl (step path) lp texts)) !! d = Some (Fulfilled old).
Proof.
  revert lp. induction texts as [|x rest IH]; intros lp H; [done|].
  simpl. by apply IH, step_keeps.
Qed.

(** Fresh units, pairwise distinct, go through the loop into the buffer
    and the batches, in order; each batch formed on the way leaves one
    promise, and settles with the translations of its texts when the
    backend answers. A buffer left after a batch was formed has a size
    that is not zero. *)
Lemma loop_fresh tr path fresh lp :
  answers tr -> loop_inv lp -> NoDup fresh ->
  (forall t, t ∈ fresh -> cache (run lp) !! t = None /\ text_length t < BYTES_LIMIT) ->
  exists newb,
    batches (run (foldl (step path) lp fresh)) = batches (run lp) ++ newb
    /\ concat (batch_texts <$> newb) ++ buffer (foldl (step path) lp fresh)
       = buffer lp ++ fresh
    /\ promises (foldl (step path) lp fresh)
       = promises lp
         ++ (BackoffPromise <$> seq (length (batches (run lp))) (length newb))
    /\ Forall (fun b => batch_outcome b = Resolved (tr <$> batch_texts b)) newb
    /\ (newb = [] \/ 0 < bufferSize (foldl (step path) lp fresh)).
Proof.
  intros Ha. revert lp. induction fresh as [|x rest IH]; intros lp Hinv Hnd Hfresh.
  { exists []. simpl. rewrite !app_nil_r. repeat split; [constructor|by left]. }
  simpl. apply NoDup_cons in Hnd as [Hx Hnd].
  destruct (Hfresh x) as [Hc Hsmall]; [left|].
  pose proof (step_fresh path lp x Hc Hsmall) as Hstep.
  set (lp1 := step path lp x) in *.
  assert (Hinv1 : loop_inv lp1) by (by apply step_inv).
  pose proof (loop_keeps_inv path rest lp1 Hinv1) as Hinv2.
  assert (Hp1 : promises lp1 = promises (make_room lp x)) by (by rewrite Hstep).
  assert (Hb1 : buffer lp1 = buffer (make_room lp x) ++ [x]) by (by rewrite Hstep).
  assert (Hbt1 : batches (run lp1) = batches (run (make_room lp x)))
    by (by rewrite Hstep).
  assert (Hc1 : cache (run lp1) = <[x := length (defers (run lp))]> (cache (run lp))).
  { rewrite Hstep. simpl. by rewrite make_room_cache, make_room_defers_length. }
  clear Hstep.
  destruct (IH lp1) as (newb & Hb & Hcat & Hp & Hout & Hsize); [done|done| |].
  { intros t Ht. destruct (Hfresh t) as [Hct Hst]; [by right|]. split; [|done].
    rewrite Hc1, lookup_insert_ne; [done|]. by intros ->. }
  clear IH. rewrite Hp1, Hb1, Hbt1 in *. clear Hp1 Hb1 Hbt1.
  unfold make_room in *.
  destruct (bufferSize lp + text_length x >? BYTES_LIMIT) eqn:Hfull.
  - (* the buffer is released first *)
    rewrite Z.gtb_ltb in Hfull. apply Z.ltb_lt in Hfull.
    unfold release in *. simpl in *.
    rewrite (dispatch_answers tr lp Ha) in Hb, Hp.
    rewrite dispatch_promises in Hp.
    exists ({| batch_texts := buffer lp; batch_trace := [Invoked];
               batch_outcome := Resolved (tr <$> buffer lp) |} :: newb).
    split; [by rewrite Hb, <- app_assoc|].
    split; [by rewrite fmap_cons, concat_cons, <- app_assoc, Hcat|].
    split.
    { rewrite Hp, <- app_assoc. f_equal. simpl. f_equal.
      rewrite length_app. simpl. by rewrite Nat.add_1_r. }
    split; [constructor; done|].
    right. destruct Hsize as [->|Hgt]; [|done]. simpl in Hcat.
    rewrite (inv_size _ _ _ Hinv2), Hcat.
    unfold bytes. simpl. fold (bytes rest).
    pose proof (bytes_nonneg rest). pose proof (inv_room _ _ _ Hinv). lia.
  - exists newb. split; [done|]. split; [by rewrite Hcat, <- app_assoc|].
    split; [done|]. split; [done|done].
Qed.

(** Texts whose lengths sum to zero are all empty. *)
Lemma bytes_zero_all_empty texts t : bytes texts = 0 -> t ∈ texts -> t = "".
Proof.
  induction texts as [|x rest IH]; intros Hz Ht.
  { by apply elem_of_nil in Ht. }
  unfold bytes in Hz. simpl in Hz. fold (bytes rest) in Hz.
  pose proof (bytes_nonneg rest). unfold text_length in Hz.
  apply elem_of_cons in Ht as [->|Ht].
  - destruct x; [done|]. simpl in Hz. lia.
  - apply IH; [lia|done].
Qed.

(** Pairwise distinct, they are none, or the empty text alone. *)
Lemma bytes_zero_nodup texts :
  bytes texts = 0 -> NoDup texts -> texts = [] \/ texts = [""].
Proof.
  intros Hz Hnd.
  destruct texts as [|x [|y rest]]; [by left| |].
  - right. f_equal. apply (bytes_zero_all_empty [x]); [done|left].
  - exfalso. apply NoDup_cons in Hnd as [Hx _]. apply Hx.
    rewrite (bytes_zero_all_empty _ x Hz) by left.
    rewrite (bytes_zero_all_empty _ y Hz) by (right; left). left.
Qed.

Lemma await_all_values st ps values :
  Forall2 (fun p v => await st p = Value v) ps values ->
  await_all st ps = Value values.
Proof. induction 1 as [|p v ps vs Hp _ IH]; simpl; [done|]. by rewrite Hp, IH. Qed.

Lemma concat_singletons {A B : Type} (f : A -> B) (l : list A) :
  concat (fmap (M := list) (fun x => [f x]) l) = fmap (M := list) f l.
Proof. induction l as [|x l IH]; [done|]. rewrite !fmap_cons, concat_cons, IH. done. Qed.

Lemma concat_fmap_fmap {A B : Type} (f : A -> B) (ls : list (list A)) :
  concat (fmap (M := list) (fmap (M := list) f) ls) = fmap (M := list) f (concat ls).
Proof.
  induction ls as [|l ls IH]; [done|].
  by rewrite fmap_cons, !concat_cons, fmap_app, IH.
Qed.

(** X18: for an input list whose units that are cache hits
    (texts of earlier batches of the run) or oversized all come before its
    fresh units, the fresh units being pairwise distinct, without a cache
    entry, below the limit, and not just the single empty text: the
    splitter returns one promise per hit or oversized unit, in input
    order, followed by one promise per batch it forms (not one per fresh
    unit); the batches, in order, are the fresh units in input order; and
    when every batch is answered position by position (or echoed, in
    dry-run mode), awaiting every promise and concatenating the resolved
    values in list order yields the translated fragments in the order of
    the input units, oversized units passing through untranslated. *)
Theorem splitter_keeps_order (tr : string -> string)
    (files : list (string * list string)) (path : string)
    (pre fresh : list string) :
  answers tr ->
  (forall t, t ∈ pre ->
     t ∈ concat (formed (language_run dryRun client files)) \/ 10000 <= text_length t) ->
  (forall t, t ∈ fresh ->
     cache (language_run dryRun client files) !! t = None /\ text_length t < 10000) ->
  NoDup fresh ->
  fresh <> [""] ->
  exists new values,
    formed (splitter dryRun client path (pre ++ fresh)
              (language_run dryRun client files)).2
    = formed (language_run dryRun client files) ++ new
    /\ concat new = fresh
    /\ (splitter dryRun client path (pre ++ fresh)
          (language_run dryRun client files)).1
       = (unit_promise (language_run dryRun client files) <$> pre)
         ++ (BackoffPromise
               <$> seq (length (formed (language_run dryRun client files)))
                       (length new))
    /\ await_all
         (splitter dryRun client path (pre ++ fresh)
            (language_run dryRun client files)).2
         (splitter dryRun client path (pre ++ fresh)
            (language_run dryRun client files)).1
       = Value values
    /\ flat values = translated tr <$> pre ++ fresh.
Proof.
  intros Ha Hpre Hfresh Hnd Hne.
  pose proof (language_run_inv files) as Hinv.
  pose proof (language_run_settled tr files Ha) as Hset.
  set (st := language_run dryRun client files) in *.
  set (lp0 := {| promises := []; buffer := []; bufferSize := 0; run := st |}).
  (* the units that are not buffered *)
  destruct (loop_prefix path pre lp0) as (Hp1 & Hb1 & Hs1 & Hc1 & Hd1 & Hbt1).
  { intros t [Ht|Ht]%Hpre; [left|by right].
    apply (inv_cached _ _ _ Hinv). apply elem_of_app. by left. }
  set (lp1 := foldl (splitter_step dryRun client path) lp0 pre) in *.
  assert (Hinv1 : loop_inv lp1) by (by apply loop_keeps_inv).
  (* the fresh units *)
  destruct (loop_fresh tr path fresh lp1 Ha Hinv1 Hnd)
    as (newb & Hb2 & Hcat & Hp2 & Hout & Hsize).
  { intros t Ht. rewrite Hc1. by apply Hfresh. }
  set (lp2 := foldl (splitter_step dryRun client path) lp1 fresh) in *.
  assert (Hinv2 : loop_inv lp2) by (by apply loop_keeps_inv).
  assert (Hloop : splitter_loop dryRun client path (pre ++ fresh) st = lp2).
  { unfold splitter_loop. by rewrite foldl_app. }
  rewrite Hb1 in Hcat. rewrite Hp1, Hbt1 in Hp2. rewrite Hbt1 in Hb2.
  simpl in Hcat, Hp2, Hb2.
  (* the batches of the invocation, the last flush included *)
  assert (exists allb,
            batches (splitter dryRun client path (pre ++ fresh) st).2
            = batches st ++ allb
            /\ concat (batch_texts <$> allb) = fresh
            /\ (splitter dryRun client path (pre ++ fresh) st).1
               = (unit_promise st <$> pre)
                 ++ (BackoffPromise <$> seq (length (batches st)) (length allb))
            /\ Forall (fun b => batch_outcome b = Resolved (tr <$> batch_texts b)) allb
            /\ forall d old, defers st !! d = Some (Fulfilled old) ->
                 defers (splitter dryRun client path (pre ++ fresh) st).2 !! d
                 = Some (Fulfilled old))
    as (allb & Hall & Hcatall & Hpall & Houtall & Hkeep).
  { assert (Hk2 : forall d old, defers st !! d = Some (Fulfilled old) ->
                    defers (run lp2) !! d = Some (Fulfilled old)).
    { intros d old Hd. apply loop_keeps, loop_keeps. exact Hd. }
    unfold splitter. rewrite Hloop.
    destruct (bufferSize lp2 =? 0) eqn:Hz; simpl.
    - (* nothing left to flush *)
      apply Z.eqb_eq in Hz. destruct Hsize as [->|Hpos]; [|lia].
      simpl in Hcat. exists []. rewrite app_nil_r. simpl.
      rewrite (inv_size _ _ _ Hinv2), Hcat in Hz.
      destruct (bytes_zero_nodup fresh Hz Hnd) as [->|Hbad]; [|done].
      repeat split; done.
    - (* the last flush *)
      exists (newb ++ [{| batch_texts := buffer lp2; batch_trace := [Invoked];
                          batch_outcome := Resolved (tr <$> buffer lp2) |}]).
      rewrite (dispatch_answers tr lp2 Ha), dispatch_promises, Hb2, Hp2.
      split; [by rewrite <- app_assoc|].
      split; [by rewrite fmap_app, concat_app; simpl; rewrite app_nil_r|].
      split.
      { rewrite <- !app_assoc. do 2 f_equal.
        rewrite (length_app newb), seq_app, fmap_app. simpl.
        by rewrite length_app. }
      split.
      { apply Forall_app. split; [done|]. by constructor. }
      intros d old Hd. by apply (dispatch_run lp2), Hk2. }
  set (r := splitter dryRun client path (pre ++ fresh) st) in *.
  exists (batch_texts <$> allb),
         (((fun t => [translated tr t]) <$> pre)
          ++ ((fun b => tr <$> batch_texts b) <$> allb)).
  assert (Hlen : length (formed st) = length (batches st))
    by (unfold formed; by rewrite length_fmap).
  split; [unfold formed; by rewrite Hall, fmap_app|].
  split; [done|].
  split; [by rewrite Hpall, Hlen, length_fmap|].
  split.
  - rewrite Hpall. apply await_all_values, Forall2_app.
    + (* hits and oversized units *)
      apply Forall2_fmap, Forall_Forall2_diag, Forall_forall.
      intros t Ht. unfold unit_promise, translated.
      destruct (Hpre t Ht) as [Hdone|Hbig].
      * destruct (inv_cached _ _ _ Hinv t) as [d Hd].
        { apply elem_of_app. by left. }
        rewrite Hd. unfold await.
        pose proof (settled_formed _ _ _ Hset t d Hdone Hd) as Hv.
        apply Hkeep in Hv. rewrite Hv.
        pose proof (inv_small _ _ _ Hinv t d Hd).
        by rewrite bool_decide_eq_false_2 by lia.
      * destruct (cache st !! t) as [d|] eqn:Hd.
        { pose proof (inv_small _ _ _ Hinv t d Hd). unfold BYTES_LIMIT in *. lia. }
        unfold await. by rewrite bool_decide_eq_true_2.
    + (* batches *)
      apply Forall2_fmap, Forall2_same_length_lookup_2.
      { by rewrite length_seq. }
      intros i k b Hk Hb. apply lookup_seq in Hk as [-> Hi]. unfold await.
      rewrite Hall, lookup_app_r by lia.
      replace (length (batches st) + i - length (batches st))%nat with i by lia.
      rewrite Hb. rewrite Forall_forall in Houtall.
      rewrite (Houtall b); [done|]. by eapply list_elem_of_lookup_2.
  - unfold flat. rewrite concat_app, concat_singletons, fmap_app. f_equal.
    rewrite <- Hcatall, <- concat_fmap_fmap, <- !list_fmap_compose.
    f_equal. apply list_fmap_ext. intros i b Hb. simpl.
    apply list_fmap_ext. intros j t Ht. unfold translated.
    rewrite bool_decide_eq_false_2; [done|].
    destruct (Hfresh t) as [_ Hsmall]; [|unfold BYTES_LIMIT; lia].
    rewrite <- Hcatall. apply elem_of_concat. exists (batch_texts b).
    split; [by eapply list_elem_of_lookup_2|].
    apply list_elem_of_fmap. exists b. split; [done|by eapply list_elem_of_lookup_2].
Qed.

End splitter_facts.

(** ** The splitter on concrete inputs *)

(** A backend that answers every text with itself. *)
Definition echo (n : nat) (texts : list string) : Response := Translations texts.

(** A backend that is down. *)
Definition down (n : nat) (texts : list string) : Response :=
  Failure (js_Error "unavailable").

(** Two short units fit in one batch: one chunk, both units echoed. *)
Example two_short_units :
  (splitter true echo "page.md" ["Hello"; "World"] initial).1 = [BackoffPromise 0]
  /\ stat (splitter true echo "page.md" ["Hello"; "World"] initial).2
     = {| stat_bytes := 10; stat_chunks := 1 |}
  /\ await_all (splitter true echo "page.md" ["Hello"; "World"] initial).2
               (splitter true echo "page.md" ["Hello"; "World"] initial).1
     = Value [["Hello"; "World"]].
Proof. by vm_compute. Qed.

(** A batch whose every attempt fails is still counted as a chunk, and is
    tried three times. *)
Example failed_batch_is_counted :
  stat (splitter false down "page.md" ["Hello"; "World"] initial).2
  = {| stat_bytes := 10; stat_chunks := 1 |}
  /\ batches (splitter false down "page.md" ["Hello"; "World"] initial).2
     = [{| batch_texts := ["Hello"; "World"];
           batch_trace := [Invoked; Waited 2000; Invoked; Waited 4000; Invoked];
           batch_outcome := Rejected (RequestError "unavailable") |}]
  /\ calls (splitter false down "page.md" ["Hello"; "World"] initial).2
     = [["Hello"; "World"]; ["Hello"; "World"]; ["Hello"; "World"]].
Proof. by vm_compute. Qed.

(** Two files sharing a paragraph: the second is served from the cache. *)
Example shared_paragraph :
  (splitter true echo "b.md" ["Shared"]
     (splitter true echo "a.md" ["Shared"] initial).2).1 = [DeferPromise 0]
  /\ stat (splitter true echo "b.md" ["Shared"]
             (splitter true echo "a.md" ["Shared"] initial).2).2
     = {| stat_bytes := 6; stat_chunks := 1 |}.
Proof. by vm_compute. Qed.

(** C1: the promise of a cache hit or of an oversized unit is pushed when
    the unit is met, the promise of a batch only when the batch is
    flushed, so a hit or an oversized unit met while the buffer is not
    empty comes before the units buffered ahead of it. In dry-run mode, on
    the units a, b, a and a fresh cache, the splitter returns two promises
    for three units: the promise of the deferred of a, pushed at the
    second occurrence of a, then the promise of the only batch, a and b.
    Awaited and concatenated in list order they give a, a, b, not a, b, a,
    and this is what the translator composes and writes for a document
    with these units. *)
Lemma splitter_order_broken :
  (splitter true echo "page.md" ["a"; "b"; "a"] initial).1
  = [DeferPromise 0; BackoffPromise 0]
  /\ length (splitter true echo "page.md" ["a"; "b"; "a"] initial).1
     <> length ["a"; "b"; "a"]
  /\ await_all (splitter true echo "page.md" ["a"; "b"; "a"] initial).2
               (splitter true echo "page.md" ["a"; "b"; "a"] initial).1
     = Value [["a"]; ["a"; "b"]]
  /\ flat [["a"]; ["a"; "b"]] <> ["a"; "b"; "a"]
  /\ (translator unit sample_extname sample_resolve sample_dirname
         (fun _ => Some "a b a") (fun _ => (["a"; "b"; "a"], tt)) sample_compose
         "in" "out" true echo "page.md" initial).1
     = (Returned,
        [Loaded "in/page.md"; DirectoryMade "out/page.md/..";
         Extracted "a b a"; SplitCalled "page.md" ["a"; "b"; "a"];
         Composed ["a"; "a"; "b"]; Dumped "out/page.md" (Some "aab")]).
Proof. vm_compute. repeat split; congruence. Qed.

(** A second file whose first unit was translated for the first one, then
    two fresh units. *)
Lemma splitter_keeps_order_witness :
  exists new values,
    formed (splitter true echo "b.md" (["x"] ++ ["y"; "z"])
              (language_run true echo [("a.md", ["x"])])).2
    = formed (language_run true echo [("a.md", ["x"])]) ++ new
    /\ concat new = ["y"; "z"]
    /\ (splitter true echo "b.md" (["x"] ++ ["y"; "z"])
          (language_run true echo [("a.md", ["x"])])).1
       = (unit_promise (language_run true echo [("a.md", ["x"])]) <$> ["x"])
         ++ (BackoffPromise
               <$> seq (length (formed (language_run true echo [("a.md", ["x"])])))
                       (length new))
    /\ await_all
         (splitter true echo "b.md" (["x"] ++ ["y"; "z"])
            (language_run true echo [("a.md", ["x"])])).2
         (splitter true echo "b.md" (["x"] ++ ["y"; "z"])
            (language_run true echo [("a.md", ["x"])])).1
       = Value values
    /\ flat values = translated (fun t => t) <$> ["x"] ++ ["y"; "z"].
Proof.
  apply (splitter_keeps_order true echo (fun t => t) [("a.md", ["x"])] "b.md"
           ["x"] ["y"; "z"]).
  - intros t. reflexivity.
  - intros t Ht. apply list_elem_of_singleton in Ht. subst t. left.
    vm_compute. left.
  - intros t Ht. apply elem_of_cons in Ht as [->|Ht];
      [|apply list_elem_of_singleton in Ht; subst t]; by vm_compute.
  - apply (bool_decide_unpack _). by vm_compute.
  - discriminate.
Defined.

(** C5: the test after the loop is on [bufferSize], which is zero for a
    buffer that holds the empty text only. On the single unit of no length
    and a fresh cache, in either mode, the splitter reserves a cache entry
    and returns without flushing: no promise, no batch, no chunk, and a
    deferred that stays pending. A later unit of no length gets the promise
    of that deferred, and awaiting it never ends. *)
Theorem empty_text_is_never_flushed (dryRun : bool)
    (client : nat -> list string -> Response) (path path' : string) :
  (splitter dryRun client path [""] initial).1 = []
  /\ buffer (splitter_loop dryRun client path [""] initial) = [""]
  /\ bufferSize (splitter_loop dryRun client path [""] initial) = 0
  /\ cache (splitter dryRun client path [""] initial).2 !! "" = Some 0%nat
  /\ defers (splitter dryRun client path [""] initial).2 = [Pending]
  /\ batches (splitter dryRun client path [""] initial).2 = []
  /\ stat (splitter dryRun client path [""] initial).2
     = {| stat_bytes := 0; stat_chunks := 0 |}
  /\ (splitter dryRun client path' [""]
        (splitter dryRun client path [""] initial).2).1 = [DeferPromise 0]
  /\ await_all
       (splitter dryRun client path' [""]
          (splitter dryRun client path [""] initial).2).2
       (splitter dryRun client path' [""]
          (splitter dryRun client path [""] initial).2).1 = Never.
Proof. repeat split. Qed.

(** A text of [n] characters. *)
Fixpoint filler (n : nat) : string :=
  match n with
  | O => ""
  | S n' => "x" +:+ filler n'
  end.

(** A text of [n] times the letter e with an acute accent, U+00E9: one
    code unit and two bytes each. *)
Fixpoint accented (n : nat) : string :=
  match n with
  | O => ""
  | S n' => String (Ascii.ascii_of_nat 233) (accented n')
  end.

(** A unit of 6000 accented letters. *)
Definition accents : string := accented (Z.to_nat 6000).

(** C3, as stated, fails: the limit is on [text.length], not on bytes. A
    unit of 6000 accented letters has length 6000 and 12000 bytes; it is
    below the limit for the splitter, which reserves a cache entry for it
    and hands it to the requester in a batch whose byte-lengths sum to
    more than 10000. *)
Lemma batch_over_limit_in_bytes :
  text_length (accents) = 6000
  /\ byte_length (accents) = 12000
  /\ formed (language_run true echo [("page.md", [accents])])
     = [[accents]]
  /\ ~ (forall batch,
          batch ∈ formed (language_run true echo [("page.md", [accents])]) ->
          foldr Z.add 0 (byte_length <$> batch) <= 10000)
  /\ ~ (forall t, 10000 <= byte_length t ->
          t ∉ concat (formed (language_run true echo [("page.md", [accents])]))).
Proof.
  assert (Hlen : text_length accents = 6000) by (vm_compute; reflexivity).
  assert (Hbytes : byte_length accents = 12000) by (vm_compute; reflexivity).
  assert (Hformed : formed (language_run true echo [("page.md", [accents])])
                    = [[accents]]) by (vm_compute; reflexivity).
  revert Hlen Hbytes Hformed. generalize accents. intros u Hlen Hbytes Hformed.
  rewrite Hformed. repeat split; try assumption.
  - intros H. specialize (H [u]). cbn [fmap list_fmap foldr] in H.
    rewrite Hbytes in H. specialize (H ltac:(left)). lia.
  - intros H. apply (H u); [rewrite Hbytes; lia|]. left.
Qed.

(** One unit of length 10500: passed through untranslated, with a warning;
    no batch, no chunk, no cache entry. *)
Example oversized_unit :
  text_length (filler (Z.to_nat 10500)) = 10500
  /\ (splitter true echo "page.md" [filler (Z.to_nat 10500)] initial).1
     = [PromiseResolve [filler (Z.to_nat 10500)]]
  /\ (splitter true echo "page.md" [filler (Z.to_nat 10500)] initial).2
     = set_warnings [("page.md", too_big)] initial.
Proof. by vm_compute. Qed.

(** A unit just below the limit and a second one that no longer fits: two
    batches, each within the limit. *)
Example two_batches :
  formed (splitter true echo "page.md"
            [filler (Z.to_nat 9999); "ab"; "c"] initial).2
  = [[filler (Z.to_nat 9999)]; ["ab"; "c"]]
  /\ (splitter true echo "page.md"
        [filler (Z.to_nat 9999); "ab"; "c"] initial).1
     = [BackoffPromise 0; BackoffPromise 1].
Proof. by vm_compute. Qed.

(** *** What the last flush does reach *)

Section flush_facts.
Variable dryRun : bool.
Variable client : nat -> list string -> Response.

(** A text that sits in a batch or in the buffer still does after a turn
    of the loop. *)
Lemma step_holds path lp x t :
  t ∈ concat (formed (run lp)) ++ buffer lp ->
  t ∈ concat (formed (run (splitter_step dryRun client path lp x)))
      ++ buffer (splitter_step dryRun client path lp x).
Proof.
  intros Ht. destruct (cache (run lp) !! x) as [d|] eqn:Hc.
  { by rewrite (step_hit _ _ _ _ _ d). }
  destruct (decide (BYTES_LIMIT <= text_length x)) as [Hbig|Hsmall].
  { by rewrite step_too_big. }
  rewrite (step_fresh dryRun client path lp x Hc ltac:(lia)). simpl.
  rewrite formed_reserve, app_assoc. apply elem_of_app. left.
  unfold make_room. destruct (_ >? _); [|done].
  unfold release. simpl.
  destruct (dispatch_run dryRun client lp) as (_&->&_).
  by rewrite concat_app, app_nil_r; simpl; rewrite app_nil_r.
Qed.

(** Every unit met without a cache entry and below the limit is in a
    batch or in the buffer when the loop ends. *)
Lemma loop_buffers path texts lp t :
  t ∈ concat (formed (run lp)) ++ buffer lp
  \/ (t ∈ texts /\ cache (run lp) !! t = None /\ text_length t < BYTES_LIMIT) ->
  t ∈ concat (formed (run (foldl (splitter_step dryRun client path) lp texts)))
      ++ buffer (foldl (splitter_step dryRun client path) lp texts).
Proof.
  revert lp. induction texts as [|x rest IH]; intros lp.
  { intros [Ht|[Ht _]]; [done|by apply elem_of_nil in Ht]. }
  simpl. intros [Ht|(Ht & Hc & Hsmall)]; apply IH.
  - left. by apply step_holds.
  - destruct (decide (x = t)) as [->|Hne].
    + left. rewrite (step_fresh dryRun client path lp t Hc Hsmall). simpl.
      rewrite app_assoc. apply elem_of_app. right. by apply list_elem_of_singleton.
    + right. apply elem_of_cons in Ht as [->|Ht]; [done|].
      split; [done|]. split; [|done].
      unfold splitter_step. destruct (cache (run lp) !! x) as [d|]; [done|].
      destruct (text_length x >=? BYTES_LIMIT); [done|].
      fold (make_room dryRun client lp x). simpl.
      rewrite lookup_insert_ne by done. by rewrite make_room_cache.
Qed.

(** The buffer of an invocation only holds units of that invocation. *)
Lemma loop_buffer_from_texts path texts st t :
  t ∈ buffer (splitter_loop dryRun client path texts st) -> t ∈ texts.
Proof.
  intros Ht. unfold splitter_loop in Ht.
  destruct (loop_formed dryRun client path texts
    {| promises := []; buffer := []; bufferSize := 0; run := st |}) as (new & _ & Hin).
  destruct (Hin t) as [H|[H _]]; [apply elem_of_app; by right| |done].
  by apply elem_of_nil in H.
Qed.

(** X1: when no unit is the empty text, every unit for which the invocation
    reserves a cache entry is handed to the requester in some batch: the
    only buffer the last test leaves behind is one made of empty texts. *)
Lemma reserved_texts_are_flushed (files : list (string * list string))
    (path : string) (texts : list string) (t : string) :
  "" ∉ texts ->
  t ∈ texts ->
  cache (language_run dryRun client files) !! t = None ->
  text_length t < 10000 ->
  t ∈ concat (formed (splitter dryRun client path texts
                        (language_run dryRun client files)).2).
Proof.
  intros Hne Ht Hc Hsmall.
  pose proof (language_run_inv dryRun client files) as Hinv.
  set (st := language_run dryRun client files) in *.
  pose proof (loop_keeps_inv dryRun client path texts
    {| promises := []; buffer := []; bufferSize := 0; run := st |} Hinv) as Hinv2.
  pose proof (loop_buffers path texts
    {| promises := []; buffer := []; bufferSize := 0; run := st |} t) as Hin.
  fold (splitter_loop dryRun client path texts st) in Hinv2, Hin.
  specialize (Hin (or_intror (conj Ht (conj Hc Hsmall)))).
  unfold splitter. destruct (bufferSize _ =? 0) eqn:Hz; simpl.
  - apply Z.eqb_eq in Hz. rewrite (inv_size _ _ _ Hinv2) in Hz.
    apply elem_of_app in Hin as [Hin|Hin]; [done|]. exfalso.
    apply Hne. rewrite <- (bytes_zero_all_empty _ t Hz Hin).
    by apply (loop_buffer_from_texts path texts st).
  - destruct (dispatch_run dryRun client (splitter_loop dryRun client path texts st))
      as (_&->&_).
    by rewrite concat_app; simpl; rewrite app_nil_r.
Qed.

End flush_facts.

(** Two fresh units of one file: the second one is in a batch. *)
Lemma reserved_texts_are_flushed_witness :
  "b" ∈ concat (formed (splitter true echo "a.md" ["a"; "b"]
                          (language_run true echo [])).2).
Proof.
  apply (reserved_texts_are_flushed true echo [] "a.md" ["a"; "b"] "b").
  - intros H. repeat (apply elem_of_cons in H as [H|H]; [discriminate H|]).
    by apply elem_of_nil in H.
  - right. left.
  - reflexivity.
  - by vm_compute.
Defined.

(** * Further properties of the code *)

(** ** The retrier, whatever the action does *)



(** ** The requester in live mode *)

(** A deferred that is the entry of no text at a position the items
    cover is left alone. *)
Lemma map_resolve_untouched items index texts st d :
  (forall k t, (k < length items)%nat -> texts !! (index + k)%nat = Some t ->
     cache st !! t <> Some d) ->
  defers (map_resolve items index texts st).2 !! d = defers st !! d.
Proof.
  revert index st. induction items as [|x rest IH]; intros index st H; [done|].
  rewrite map_resolve_cons. simpl. rewrite IH.
  - unfold resolve. destruct (texts !! index) as [key|] eqn:Hk; [|done].
    destruct (cache st !! key) as [d'|] eqn:Hc; [|done]. simpl.
    apply defer_resolve_other. intros ->.
    apply (H 0%nat key); [simpl; lia|by rewrite Nat.add_0_r|done].
  - intros k t Hlt Ht. rewrite resolve_cache.
    apply (H (S k) t); [simpl; lia|]. by rewrite Nat.add_succ_r.
Qed.

(** The item at a position fulfils the pending deferred of the text at
    that position, unless an earlier text has the same deferred. *)
Lemma map_resolve_at items index texts st k v t d :
  items !! k = Some v -> texts !! (index + k)%nat = Some t ->
  cache st !! t = Some d -> defers st !! d = Some Pending ->
  (forall j t', (j < k)%nat -> texts !! (index + j)%nat = Some t' ->
     cache st !! t' <> Some d) ->
  defers (map_resolve items index texts st).2 !! d = Some (Fulfilled [v]).
Proof.
  revert index k st. induction items as [|x rest IH]; intros index k st Hv Ht Hc Hp Hfirst.
  { done. }
  rewrite map_resolve_cons. simpl. destruct k as [|k].
  - simpl in Hv. injection Hv as ->. rewrite Nat.add_0_r in Ht.
    apply map_resolve_keeps. by eapply resolve_pending.
  - simpl in Hv. rewrite Nat.add_succ_r in Ht.
    apply (IH (S index) k); try done.
    + by rewrite resolve_cache.
    + unfold resolve. destruct (texts !! index) as [key|] eqn:Hk; [|done].
      destruct (cache st !! key) as [d'|] eqn:Hc'; [|done]. simpl.
      rewrite defer_resolve_other; [done|]. intros ->.
      apply (Hfirst 0%nat key); [lia|by rewrite Nat.add_0_r|done].
    + intros j t' Hj Ht'. rewrite resolve_cache.
      apply (Hfirst (S j) t'); [lia|]. by rewrite Nat.add_succ_r.
Qed.

(** X3: in live mode the action makes one backend call, with the texts of
    the batch, and changes nothing else but deferred values. If the call
    fails, the action rejects with a [RequestError] and no deferred is
    touched; the message of the error is the message of what the backend
    threw when it has one that is not empty, and what the backend threw
    rendered as a string otherwise. If it succeeds, the action returns
    the translations as they came; the translation at each position
    fulfils the pending deferred of the text at that position (the first
    such position, when texts share a deferred); and a deferred that is the
    entry of no text at a position the answer covers is left alone, so a
    backend that answers with fewer translations than texts leaves the
    deferred values of the texts beyond its answer pending. *)
Theorem live_action_resolves (client : nat -> list string -> Response)
    (texts : list string) (st : Run) :
  calls (action false client texts st).2 = calls st ++ [texts]
  /\ settles st (action false client texts st).2
  /\ (forall error, client (length (calls st)) texts = Failure error ->
        action false client texts st
        = (Rejected (new_RequestError error), set_calls (calls st ++ [texts]) st)
        /\ (forall message, thrown_message error = Some message -> message <> "" ->
              new_RequestError error = RequestError message)
        /\ (thrown_message error = None \/ thrown_message error = Some "" ->
              new_RequestError error = RequestError (thrown_string error)))
  /\ (forall translations,
        client (length (calls st)) texts = Translations translations ->
        (action false client texts st).1 = Resolved translations
        /\ (forall k v t d,
              translations !! k = Some v -> texts !! k = Some t ->
              cache st !! t = Some d -> defers st !! d = Some Pending ->
              (forall j t', (j < k)%nat -> texts !! j = Some t' ->
                 cache st !! t' <> Some d) ->
              defers (action false client texts st).2 !! d = Some (Fulfilled [v]))
        /\ (forall d,
              (forall k t, (k < length translations)%nat -> texts !! k = Some t ->
                 cache st !! t <> Some d) ->
              defers (action false client texts st).2 !! d = defers st !! d)).
Proof.
  split; [|split; [apply action_settles|split]].
  - unfold action. destruct (client _ _) as [ts|msg]; [|done].
    pose proof (map_resolve_frame ts 0 texts (set_calls (calls st ++ [texts]) st))
      as (_&_&_&Hcalls&_).
    by destruct (map_resolve ts 0 texts _).
  - intros error Hfail. split; [unfold action; by rewrite Hfail|].
    unfold new_RequestError. split.
    + intros message -> Hne. by rewrite bool_decide_eq_false_2.
    + by intros [->| ->].
  - intros ts Hok.
    assert (E : action false client texts st
                = (Resolved ts,
                   (map_resolve ts 0 texts (set_calls (calls st ++ [texts]) st)).2)).
    { unfold action. rewrite Hok.
      pose proof (map_resolve_fst ts 0 texts (set_calls (calls st ++ [texts]) st)) as Hf.
      destruct (map_resolve ts 0 texts _) as [out st1]. simpl in *. by subst. }
    rewrite E. simpl. split; [done|]. split.
    + intros k v t d Hv Ht Hc Hp Hfirst.
      by apply (map_resolve_at ts 0 texts _ k v t d).
    + intros d Hd. by rewrite map_resolve_untouched.
Qed.

(** An error with an empty message: the request error says ["Error"]. *)
Example empty_message :
  (action false (fun _ _ => Failure (js_Error "")) ["a"] initial).1
  = Rejected (RequestError "Error")
  /\ (action false (fun _ _ => Failure (js_Error "unavailable")) ["a"] initial).1
     = Rejected (RequestError "unavailable").
Proof. by vm_compute. Qed.

(** A backend that drops the last translation: the second text stays
    pending. *)
Example short_answer :
  batches (splitter false (fun _ texts => Translations (take 1 texts)) "page.md"
             ["a"; "b"] initial).2
  = [{| batch_texts := ["a"; "b"]; batch_trace := [Invoked];
        batch_outcome := Resolved ["a"] |}]
  /\ defers (splitter false (fun _ texts => Translations (take 1 texts)) "page.md"
               ["a"; "b"] initial).2
     = [Fulfilled ["a"]; Pending].
Proof. by vm_compute. Qed.

(** ** Invariants of a language run *)

Section run_invariants.
Variable dryRun : bool.
Variable client : nat -> list string -> Response.

(** A batch is only ever started on a buffer whose size is not zero: in
    the loop the buffer is released when the next text does not fit, at
    the end when [bufferSize] is not zero. A property of the state that
    setting the cache, the heap or the warnings cannot break, and that
    starting a batch on such a buffer keeps, holds all along a language
    run. *)
Section preserved.
Variable P : Run -> Prop.
Hypothesis P_cache : forall st c, P st -> P (set_cache c st).
Hypothesis P_defers : forall st h, P st -> P (set_defers h st).
Hypothesis P_warnings : forall st w, P st -> P (set_warnings w st).
Hypothesis P_dispatch : forall lp,
  loop_inv lp -> 0 < bufferSize lp -> P (run lp) -> P (run (dispatch dryRun client lp)).

Lemma step_preserves path lp text :
  loop_inv lp -> P (run lp) -> P (run (splitter_step dryRun client path lp text)).
Proof.
  intros Hinv HP. destruct (cache (run lp) !! text) as [d|] eqn:Hc.
  { by rewrite (step_hit _ _ _ _ _ d). }
  destruct (decide (BYTES_LIMIT <= text_length text)) as [Hbig|Hsmall].
  { rewrite step_too_big by done. simpl. by apply P_warnings. }
  rewrite (step_fresh dryRun client path lp text Hc ltac:(lia)). simpl.
  apply P_cache, P_defers. unfold make_room.
  destruct (bufferSize lp + text_length text >? BYTES_LIMIT) eqn:Hfull; [|done].
  rewrite Z.gtb_ltb in Hfull. apply Z.ltb_lt in Hfull.
  unfold release. simpl. apply P_dispatch; [done|lia|done].
Qed.

Lemma loop_preserves path texts lp :
  loop_inv lp -> P (run lp) ->
  P (run (foldl (splitter_step dryRun client path) lp texts)).
Proof.
  revert lp. induction texts as [|x rest IH]; intros lp Hinv HP; [done|].
  simpl. apply IH; [by apply step_inv|by apply step_preserves].
Qed.

Lemma splitter_preserves path texts st :
  inv st [] 0 -> P st -> P (splitter dryRun client path texts st).2.
Proof.
  intros Hinv HP. unfold splitter.
  pose proof (loop_keeps_inv dryRun client path texts
    {| promises := []; buffer := []; bufferSize := 0; run := st |} Hinv) as Hinv2.
  pose proof (loop_preserves path texts
    {| promises := []; buffer := []; bufferSize := 0; run := st |} Hinv HP) as HP2.
  fold (splitter_loop dryRun client path texts st) in Hinv2, HP2.
  destruct (bufferSize _ =? 0) eqn:Hz; simpl; [done|].
  apply Z.eqb_neq in Hz. apply P_dispatch; [done| |done].
  pose proof (bytes_nonneg (buffer (splitter_loop dryRun client path texts st))).
  rewrite (inv_size _ _ _ Hinv2) in *. lia.
Qed.

Lemma language_run_preserves files :
  P initial -> P (language_run dryRun client files).
Proof.
  intros HP. induction files as [|[path texts] rest IH] using rev_ind; [done|].
  rewrite language_run_snoc.
  apply splitter_preserves; [apply language_run_inv|done].
Qed.

End preserved.

(** What starting a batch adds to the run: one batch with the texts of
    the buffer, tried between one and three times, and, in live mode, one
    call to the backend per try. *)
Lemma retryAttempt_invoked {State : Type} interval (task : State -> Outcome * State)
    remaining attempt s :
  (1 <= invocations (Retry.retryAttempt interval task remaining attempt s).1.1)%nat.
Proof.
  destruct remaining as [|n].
  - rewrite retryAttempt_last. simpl. lia.
  - destruct (task s) as [[v|e] s1] eqn:E.
    + rewrite (retryAttempt_resolved _ _ _ _ _ v) by (by rewrite E). simpl. lia.
    + rewrite retryAttempt_rejected by (by rewrite E). simpl. lia.
Qed.

Lemma action_calls texts st :
  calls (action dryRun client texts st).2
  = calls st ++ (if dryRun then [] else [texts]).
Proof.
  unfold action. destruct dryRun.
  - pose proof (map_resolve_frame texts 0 texts st) as (_&_&_&Hc&_).
    destruct (map_resolve texts 0 texts st). simpl in *. by rewrite app_nil_r.
  - destruct (client _ _) as [ts|msg]; [|done].
    pose proof (map_resolve_frame ts 0 texts (set_calls (calls st ++ [texts]) st))
      as (_&_&_&Hc&_).
    by destruct (map_resolve ts 0 texts _).
Qed.

Lemma retryAttempt_calls interval texts remaining attempt st :
  calls (Retry.retryAttempt interval (action dryRun client texts) remaining attempt st).2
  = calls st
    ++ (if dryRun then []
        else replicate
               (invocations (Retry.retryAttempt interval (action dryRun client texts)
                               remaining attempt st).1.1) texts).
Proof.
  revert attempt st. induction remaining as [|n IH]; intros attempt st.
  - rewrite retryAttempt_last. cbn [fst snd invocations replicate].
    rewrite action_calls. by destruct dryRun.
  - destruct (action dryRun client texts st).1 as [v|e] eqn:E.
    + rewrite (retryAttempt_resolved _ _ _ _ _ v E).
      cbn [fst snd invocations replicate]. rewrite action_calls. by destruct dryRun.
    + rewrite retryAttempt_rejected by (by rewrite E).
      cbv zeta. cbn [fst snd invocations replicate].
      rewrite IH, action_calls. destruct dryRun; [by rewrite app_nil_r|].
      by rewrite <- app_assoc.
Qed.

Lemma dispatch_batch lp :
  exists trace out,
    batches (run (dispatch dryRun client lp))
    = batches (run lp) ++ [{| batch_texts := buffer lp; batch_trace := trace;
                              batch_outcome := out |}]
    /\ (1 <= invocations trace <= 3)%nat
    /\ calls (run (dispatch dryRun client lp))
       = calls (run lp)
         ++ (if dryRun then [] else replicate (invocations trace) (buffer lp)).
Proof.
  unfold dispatch, request.
  set (st1 := set_stat _ (set_stat _ _)).
  pose proof (backoff_settles dryRun client (buffer lp) st1) as (_&_&_&Hb&_).
  pose proof (retryAttempt_calls backoff_interval (buffer lp)
                (Z.to_nat (Retry.parseTimes RETRY_LIMIT - 1)) 1 st1) as Hcalls.
  pose proof (retryAttempt_invoked backoff_interval (action dryRun client (buffer lp))
                (Z.to_nat (Retry.parseTimes RETRY_LIMIT - 1)) 1 st1) as Hge.
  pose proof (retryAttempt_invocations (action dryRun client (buffer lp))
                backoff_interval
                (Z.to_nat (Retry.parseTimes RETRY_LIMIT - 1)) 1 st1) as Hle.
  change (Retry.retryAttempt backoff_interval (action dryRun client (buffer lp))
            (Z.to_nat (Retry.parseTimes RETRY_LIMIT - 1)) 1 st1)
    with (backoff (action dryRun client (buffer lp)) st1) in *.
  change (Z.to_nat (Retry.parseTimes RETRY_LIMIT - 1)) with 2%nat in Hle.
  destruct (backoff _ st1) as [[trace out] st2]. simpl in *.
  exists trace, out. rewrite Hb. split; [done|]. split; [lia|done].
Qed.

End run_invariants.

Section run_accounting.
Variable dryRun : bool.
Variable client : nat -> list string -> Response.


(** The calls one batch makes: in live mode its texts, once per
    invocation of its action; none in dry-run mode. *)
Definition calls_of (b : Batch) : list (list string) :=
  if dryRun then [] else replicate (invocations (batch_trace b)) (batch_texts b).

Lemma calls_of_length b :
  (invocations (batch_trace b) <= 3)%nat -> (length (calls_of b) <= 3)%nat.
Proof.
  intros H. unfold calls_of. destruct dryRun; simpl; [lia|].
  by rewrite length_replicate.
Qed.

(** X5: all along a language run, the action of every batch is invoked at
    least once and at most three times; in live mode the calls made to the
    backend are, in some order, the texts of each batch once per
    invocation of its action: every call carries the texts of a batch,
    and there are at least as many calls as batches and at most three
    times as many; in dry-run mode no call is ever made. *)
Theorem backend_calls_per_batch (files : list (string * list string)) :
  Forall (fun b => (1 <= invocations (batch_trace b) <= 3)%nat)
         (batches (language_run dryRun client files))
  /\ calls (language_run dryRun client files)
     ≡ₚ concat (calls_of <$> batches (language_run dryRun client files))
  /\ (forall call, call ∈ calls (language_run dryRun client files) ->
        call ∈ formed (language_run dryRun client files))
  /\ (length (calls (language_run dryRun client files))
      <= 3 * length (batches (language_run dryRun client files)))%nat
  /\ (dryRun = false ->
        (length (batches (language_run dryRun client files))
         <= length (calls (language_run dryRun client files)))%nat)
  /\ (dryRun = true -> calls (language_run dryRun client files) = []).
Proof.
  assert (H : Forall (fun b => (1 <= invocations (batch_trace b) <= 3)%nat)
                     (batches (language_run dryRun client files))
              /\ calls (language_run dryRun client files)
                 = concat (calls_of <$> batches (language_run dryRun client files))).
  { apply (language_run_preserves dryRun client
      (fun st => Forall (fun b => (1 <= invocations (batch_trace b) <= 3)%nat) (batches st)
                 /\ calls st = concat (calls_of <$> batches st))); try done.
    intros lp _ _ [Hall Hcalls].
    destruct (dispatch_batch dryRun client lp) as (trace & out & -> & Hn & ->).
    split.
    - apply Forall_app. split; [done|]. by constructor.
    - rewrite fmap_app, concat_app, Hcalls. simpl. by rewrite app_nil_r. }
  destruct H as [Hall Hcalls]. split; [done|]. split; [by rewrite Hcalls|].
  split; [|split; [|split]].
  - intros call. rewrite Hcalls. unfold formed. clear Hcalls Hall.
    induction (batches _) as [|b bs IH]; [by intros ?%elem_of_nil|].
    rewrite !fmap_cons, concat_cons. intros [Hb|Hbs]%elem_of_app.
    + unfold calls_of in Hb. destruct dryRun; [by apply elem_of_nil in Hb|].
      apply elem_of_replicate in Hb as [-> _]. left.
    + right. by apply IH.
  - rewrite Hcalls. clear Hcalls.
    induction Hall as [|b bs Hb _ IH]; [done|].
    rewrite fmap_cons, concat_cons, length_app. simpl.
    pose proof (calls_of_length b). lia.
  - intros Hlive. rewrite Hcalls. clear Hcalls.
    induction Hall as [|b bs Hb _ IH]; [done|].
    rewrite fmap_cons, concat_cons, length_app. simpl.
    unfold calls_of at 1. rewrite Hlive, length_replicate. lia.
  - intros Hdry. rewrite Hcalls. clear Hcalls Hall.
    induction (batches _) as [|b bs IH]; [done|].
    rewrite fmap_cons, concat_cons, IH. unfold calls_of. by rewrite Hdry.
Qed.

(** X6: no batch handed to the requester is empty: every batch of a
    language run holds at least one text, and its texts are not all of no
    length. *)
Theorem batches_are_not_empty (files : list (string * list string))
    (batch : list string) :
  batch ∈ formed (language_run dryRun client files) ->
  batch <> [] /\ 0 < foldr Z.add 0 (text_length <$> batch).
Proof.
  intros Hin.
  assert (H : Forall (fun b => 0 < bytes b) (formed (language_run dryRun client files))).
  { apply (language_run_preserves dryRun client
      (fun st => Forall (fun b => 0 < bytes b) (formed st))); try done.
    intros lp Hinv Hpos Hall.
    destruct (dispatch_run dryRun client lp) as (_&->&_).
    apply Forall_app. split; [done|]. constructor; [|done].
    by rewrite <- (inv_size _ _ _ Hinv). }
  rewrite Forall_forall in H. specialize (H batch Hin).
  rewrite <- bytes_sum. split; [|done]. by intros ->.
Qed.

End run_accounting.

Lemma batches_are_not_empty_witness :
  ["Hello"; "World"] <> []
  /\ 0 < foldr Z.add 0 (text_length <$> ["Hello"; "World"]).
Proof.
  apply (batches_are_not_empty true echo [("page.md", ["Hello"; "World"])]).
  vm_compute. left.
Defined.

(** ** What an invocation buffers, and in which order *)

(** The units the loop puts in the buffer, in order: those that have no
    cache entry when they are met and are below the limit. [seen] is the
    set of the texts that have an entry. *)
Fixpoint fresh_units (seen : gset string) (texts : list string) : list string :=
  match texts with
  | [] => []
  | t :: rest =>
      if decide (t ∈ seen) then fresh_units seen rest
      else if BYTES_LIMIT <=? text_length t then fresh_units seen rest
      else t :: fresh_units ({[t]} ∪ seen) rest
  end.

Section buffering.
Variable dryRun : bool.
Variable client : nat -> list string -> Response.

Local Abbreviation step := (splitter_step dryRun client).

Lemma make_room_formed lp x :
  exists released,
    formed (run (make_room dryRun client lp x)) = formed (run lp) ++ released
    /\ concat released ++ buffer (make_room dryRun client lp x) = buffer lp
    /\ length (promises (make_room dryRun client lp x))
       = (length (promises lp) + length released)%nat.
Proof.
  unfold make_room. destruct (_ >? _).
  - exists [buffer lp]. unfold release. simpl.
    destruct (dispatch_run dryRun client lp) as (_&->&_).
    rewrite dispatch_promises, length_app. simpl. by rewrite !app_nil_r.
  - exists []. simpl. rewrite app_nil_r. split; [done|]. split; [done|lia].
Qed.

(** The batches formed through the loop, followed by its buffer, are the
    buffer it started with followed by the fresh units, in order; every
    unit that is not buffered leaves one promise, and so does every
    batch. *)
Lemma loop_buffered path texts lp :
  exists new,
    formed (run (foldl (step path) lp texts)) = formed (run lp) ++ new
    /\ concat new ++ buffer (foldl (step path) lp texts)
       = buffer lp ++ fresh_units (dom (cache (run lp))) texts
    /\ (length (promises (foldl (step path) lp texts))
        + length (fresh_units (dom (cache (run lp))) texts)
        = length (promises lp) + length texts + length new)%nat.
Proof.
  revert lp. induction texts as [|x rest IH]; intros lp.
  { exists []. simpl. rewrite !app_nil_r. split; [done|]. split; [done|lia]. }
  simpl. destruct (IH (step path lp x)) as (new & Hf & Hcat & Hlen). clear IH.
  destruct (cache (run lp) !! x) as [d|] eqn:Hc.
  { rewrite decide_True by (apply elem_of_dom; by eexists).
    rewrite (step_hit _ _ _ _ _ d) in * by done. simpl in *.
    exists new. split; [done|]. split; [done|]. rewrite length_app in Hlen.
    simpl in Hlen. lia. }
  rewrite decide_False by (by apply not_elem_of_dom).
  destruct (decide (BYTES_LIMIT <= text_length x)) as [Hbig|Hsmall].
  { rewrite (proj2 (Z.leb_le _ _) Hbig).
    rewrite step_too_big in * by done. simpl in *.
    exists new. split; [done|]. split; [done|]. rewrite length_app in Hlen.
    simpl in Hlen. lia. }
  rewrite (proj2 (Z.leb_gt _ _)) by lia.
  assert (Hlt : text_length x < BYTES_LIMIT) by (clear -Hsmall; lia).
  pose proof (step_fresh dryRun client path lp x Hc Hlt) as Hstep.
  set (lp1 := step path lp x) in *.
  assert (Hp1 : promises lp1 = promises (make_room dryRun client lp x))
    by (by rewrite Hstep).
  assert (Hb1 : buffer lp1 = buffer (make_room dryRun client lp x) ++ [x])
    by (by rewrite Hstep).
  assert (Hf1 : formed (run lp1) = formed (run (make_room dryRun client lp x)))
    by (by rewrite Hstep).
  assert (Hd1 : dom (cache (run lp1)) = {[x]} ∪ dom (cache (run lp))).
  { rewrite Hstep. simpl. by rewrite dom_insert_L, make_room_cache. }
  clear Hstep. rewrite Hd1 in Hcat, Hlen. rewrite Hb1 in Hcat. rewrite Hp1 in Hlen.
  rewrite Hf1 in Hf.
  destruct (make_room_formed lp x) as (released & Hr & Hrcat & Hrlen).
  exists (released ++ new). rewrite Hf, Hr, <- app_assoc. split; [done|].
  split.
  - rewrite concat_app, <- app_assoc, Hcat, app_assoc, app_assoc, Hrcat.
    by rewrite <- app_assoc.
  - rewrite length_app. simpl. lia.
Qed.

(** X7: the batches an invocation forms hold, in the order of the input,
    the units that had no cache entry when they were met and are shorter
    than 10000, each once; only a buffer made of the empty text alone is
    left out. *)
Theorem batches_hold_fresh_units_in_order (files : list (string * list string))
    (path : string) (texts : list string) :
  exists new leftover,
    formed (splitter dryRun client path texts (language_run dryRun client files)).2
    = formed (language_run dryRun client files) ++ new
    /\ concat new ++ leftover
       = fresh_units (dom (cache (language_run dryRun client files))) texts
    /\ (leftover = [] \/ leftover = [""]).
Proof.
  pose proof (language_run_inv dryRun client files) as Hinv.
  set (st := language_run dryRun client files) in *.
  set (lp0 := {| promises := []; buffer := []; bufferSize := 0; run := st |}).
  destruct (loop_buffered path texts lp0) as (new & Hf & Hcat & _).
  pose proof (loop_keeps_inv dryRun client path texts lp0 Hinv) as Hinv2.
  unfold splitter, splitter_loop. fold lp0.
  set (lp := foldl (step path) lp0 texts) in *.
  simpl in Hf, Hcat.
  destruct (bufferSize lp =? 0) eqn:Hz; simpl.
  - exists new, (buffer lp).
    split; [done|]. split; [done|].
    apply Z.eqb_eq in Hz. rewrite (inv_size _ _ _ Hinv2) in Hz.
    apply bytes_zero_nodup; [done|].
    pose proof (inv_nodup _ _ _ Hinv2) as Hnd. by apply NoDup_app in Hnd as (_&_&?).
  - exists (new ++ [buffer lp]), [].
    destruct (dispatch_run dryRun client lp) as (_&->&_).
    rewrite Hf, <- app_assoc. split; [done|]. split; [|by left].
    rewrite app_nil_r, concat_app. simpl. by rewrite app_nil_r.
Qed.

(** X8: an invocation returns one promise for every unit it does not
    buffer and one for every batch it forms: the number of promises plus
    the number of buffered units is the number of units plus the number of
    new batches. *)
Theorem promises_count (path : string) (texts : list string) (st : Run) :
  (length (splitter dryRun client path texts st).1
   + length (fresh_units (dom (cache st)) texts)
   = length texts
     + (length (batches (splitter dryRun client path texts st).2)
        - length (batches st)))%nat.
Proof.
  set (lp0 := {| promises := []; buffer := []; bufferSize := 0; run := st |}).
  destruct (loop_buffered path texts lp0) as (new & Hf & _ & Hlen).
  unfold splitter, splitter_loop. fold lp0.
  set (lp := foldl (step path) lp0 texts) in *.
  simpl in Hf, Hlen.
  assert (Hb : forall s, length (batches s) = length (formed s))
    by (intros s; unfold formed; by rewrite length_fmap).
  destruct (bufferSize lp =? 0); simpl.
  - rewrite !Hb, Hf, length_app. lia.
  - destruct (dispatch_run dryRun client lp) as (_&Hd&_).
    rewrite dispatch_promises, length_app, !Hb, Hd, Hf, !length_app. simpl. lia.
Qed.

End buffering.

(** Three units, the second one a repeat: one promise for the repeat, one
    for the batch of the two others. *)
Example promises_count_sample :
  (splitter true echo "page.md" ["a"; "a"; "b"] initial).1
  = [DeferPromise 0; BackoffPromise 0]
  /\ fresh_units (dom (cache initial)) ["a"; "a"; "b"] = ["a"; "b"].
Proof. by vm_compute. Qed.

(** ** How full the batches are *)

(** Each batch but the last was closed because the first text of the next
    one did not fit in it. *)
Fixpoint packed (groups : list (list string)) : Prop :=
  match groups with
  | b :: rest =>
      match rest with
      | b' :: _ =>
          (exists t more, b' = t :: more /\ BYTES_LIMIT < bytes b + text_length t)
          /\ packed rest
      | [] => True
      end
  | [] => True
  end.

Lemma packed_grow groups b x : packed (groups ++ [b]) -> packed (groups ++ [b ++ [x]]).
Proof.
  induction groups as [|a [|a' groups] IH]; simpl.
  - done.
  - intros [(t & more & -> & Hfull) _]. split; [|done].
    exists t, (more ++ [x]). by split.
  - intros [Ha Hrest]. split; [done|]. by apply IH.
Qed.

Lemma packed_close groups b x :
  packed (groups ++ [b]) -> BYTES_LIMIT < bytes b + text_length x ->
  packed ((groups ++ [b]) ++ [[x]]).
Proof.
  intros Hp Hfull. induction groups as [|a [|a' groups] IH]; simpl in *.
  - split; [|done]. by exists x, [].
  - destruct Hp as [Ha _]. split; [done|]. split; [|done]. by exists x, [].
  - destruct Hp as [Ha Hrest]. split; [done|]. by apply IH.
Qed.

Lemma packed_init groups b : packed (groups ++ [b]) -> packed groups.
Proof.
  induction groups as [|a [|a' groups] IH]; simpl; try done.
  intros [Ha Hrest]. split; [done|]. by apply IH.
Qed.

Lemma packed_lookup groups i b b' :
  packed groups -> groups !! i = Some b -> groups !! S i = Some b' ->
  exists t more, b' = t :: more /\ BYTES_LIMIT < bytes b + text_length t.
Proof.
  revert i. induction groups as [|a [|a' groups] IH]; intros i Hp Hb Hb'.
  - done.
  - by destruct i.
  - destruct i as [|i].
    + simpl in Hb, Hb'. injection Hb as ->. injection Hb' as ->. apply Hp.
    + apply (IH i); [apply Hp|done|done].
Qed.

Section packing.
Variable dryRun : bool.
Variable client : nat -> list string -> Response.

Local Abbreviation step := (splitter_step dryRun client).

Lemma loop_packed path texts lp earlier :
  loop_inv lp -> packed (earlier ++ [buffer lp]) ->
  exists new,
    formed (run (foldl (step path) lp texts)) = formed (run lp) ++ new
    /\ packed ((earlier ++ new) ++ [buffer (foldl (step path) lp texts)]).
Proof.
  revert lp earlier. induction texts as [|x rest IH]; intros lp earlier Hinv Hp.
  { exists []. simpl. by rewrite !app_nil_r. }
  simpl. pose proof (step_inv dryRun client path lp x Hinv) as Hinv1.
  assert (Hsame : buffer (step path lp x) = buffer lp ->
                  formed (run (step path lp x)) = formed (run lp) ->
                  exists new,
                    formed (run (foldl (step path) (step path lp x) rest))
                    = formed (run lp) ++ new
                    /\ packed ((earlier ++ new)
                                ++ [buffer (foldl (step path) (step path lp x) rest)])).
  { intros Hb Hf. rewrite <- Hf. apply IH; [done|by rewrite Hb]. }
  destruct (cache (run lp) !! x) as [d|] eqn:Hc.
  { apply Hsame; by rewrite (step_hit _ _ _ _ _ d). }
  destruct (decide (BYTES_LIMIT <= text_length x)) as [Hbig|Hsmall].
  { apply Hsame; by rewrite step_too_big. }
  clear Hsame.
  assert (Hlt : text_length x < BYTES_LIMIT) by (clear -Hsmall; lia).
  pose proof (step_fresh dryRun client path lp x Hc Hlt) as Hstep.
  set (lp1 := step path lp x) in *.
  assert (Hb1 : buffer lp1 = buffer (make_room dryRun client lp x) ++ [x])
    by (by rewrite Hstep).
  assert (Hf1 : formed (run lp1) = formed (run (make_room dryRun client lp x)))
    by (by rewrite Hstep).
  clear Hstep. unfold make_room in Hb1, Hf1.
  destruct (bufferSize lp + text_length x >? BYTES_LIMIT) eqn:Hfull.
  - (* the buffer is closed and a new one starts with x *)
    rewrite Z.gtb_ltb in Hfull. apply Z.ltb_lt in Hfull.
    unfold release in Hb1, Hf1. simpl in Hb1, Hf1.
    destruct (dispatch_run dryRun client lp) as (_&Hd&_). rewrite Hd in Hf1.
    destruct (IH lp1 (earlier ++ [buffer lp])) as (new & Hf & Hpk); [done| |].
    { rewrite Hb1. simpl. apply packed_close; [done|].
      by rewrite <- (inv_size _ _ _ Hinv). }
    exists ([buffer lp] ++ new). rewrite Hf, Hf1, <- !app_assoc. split; [done|].
    by rewrite <- !app_assoc in Hpk.
  - destruct (IH lp1 earlier) as (new & Hf & Hpk); [done| |].
    { rewrite Hb1. by apply packed_grow. }
    exists new. by rewrite Hf, Hf1.
Qed.

(** X9: the batches of one invocation are filled in turn, each one closed
    only when the next fresh unit does not fit: of two batches formed one
    after the other by the same invocation, the second is not empty, and
    the lengths of the texts of the first plus the length of the first
    text of the second exceed 10000. *)
Theorem batches_are_packed (files : list (string * list string))
    (path : string) (texts : list string) (i : nat) (b b' : list string) :
  drop (length (formed (language_run dryRun client files)))
       (formed (splitter dryRun client path texts
                  (language_run dryRun client files)).2) !! i = Some b ->
  drop (length (formed (language_run dryRun client files)))
       (formed (splitter dryRun client path texts
                  (language_run dryRun client files)).2) !! S i = Some b' ->
  exists t more,
    b' = t :: more
    /\ 10000 < foldr Z.add 0 (text_length <$> b) + text_length t.
Proof.
  pose proof (language_run_inv dryRun client files) as Hinv.
  set (st := language_run dryRun client files) in *.
  set (lp0 := {| promises := []; buffer := []; bufferSize := 0; run := st |}).
  destruct (loop_packed path texts lp0 [] Hinv I) as (new & Hf & Hpk).
  unfold splitter, splitter_loop. fold lp0.
  set (lp := foldl (step path) lp0 texts) in *. simpl in Hf, Hpk.
  rewrite <- bytes_sum.
  destruct (bufferSize lp =? 0); simpl.
  - rewrite Hf, drop_app_length. apply packed_lookup. by apply packed_init in Hpk.
  - destruct (dispatch_run dryRun client lp) as (_&->&_).
    rewrite Hf, <- app_assoc, drop_app_length. by apply packed_lookup.
Qed.

End packing.

Lemma batches_are_packed_witness :
  exists t more,
    ["ab"; "c"] = t :: more
    /\ 10000 < foldr Z.add 0 (text_length <$> [filler (Z.to_nat 9999)]) + text_length t.
Proof.
  apply (batches_are_packed true echo [] "page.md"
           [filler (Z.to_nat 9999); "ab"; "c"] 0 [filler (Z.to_nat 9999)] ["ab"; "c"]).
  - by vm_compute.
  - by vm_compute.
Defined.

(** ** The keys of the cache *)

Section cache_keys.
Variable dryRun : bool.
Variable client : nat -> list string -> Response.

Lemma step_cache_keys path lp x t :
  is_Some (cache (run (splitter_step dryRun client path lp x)) !! t)
  <-> is_Some (cache (run lp) !! t) \/ (t = x /\ text_length x < BYTES_LIMIT).
Proof.
  destruct (cache (run lp) !! x) as [d|] eqn:Hc.
  { rewrite (step_hit _ _ _ _ _ d) by done. simpl. split; [by left|].
    intros [?|[-> _]]; [done|by eexists]. }
  destruct (decide (BYTES_LIMIT <= text_length x)) as [Hbig|Hsmall].
  { rewrite step_too_big by done. simpl. split; [by left|].
    intros [?|[_ ?]]; [done|lia]. }
  assert (Hlt : text_length x < BYTES_LIMIT) by lia.
  rewrite (step_fresh dryRun client path lp x Hc Hlt). simpl.
  rewrite lookup_insert_is_Some, make_room_cache. split.
  - intros [->|[_ ?]]; [by right|by left].
  - intros [?|[-> _]]; [|by left].
    destruct (decide (x = t)) as [->|?]; [by left|by right].
Qed.

Lemma splitter_cache_keys path texts st t :
  is_Some (cache (splitter dryRun client path texts st).2 !! t)
  <-> is_Some (cache st !! t) \/ (t ∈ texts /\ text_length t < BYTES_LIMIT).
Proof.
  assert (Hloop : forall lp,
    is_Some (cache (run (foldl (splitter_step dryRun client path) lp texts)) !! t)
    <-> is_Some (cache (run lp) !! t) \/ (t ∈ texts /\ text_length t < BYTES_LIMIT)).
  { induction texts as [|x rest IH]; intros lp; simpl.
    - split; [by left|]. intros [?|[?%elem_of_nil _]]; done.
    - rewrite IH, step_cache_keys. split.
      + intros [[?|[-> ?]]|[? ?]]; [by left|right|right]; (split; [|done]).
        * left.
        * by right.
      + intros [?|[[->|?]%elem_of_cons ?]]; [by left; left|by left; right|by right]. }
  unfold splitter, splitter_loop. destruct (bufferSize _ =? 0); simpl.
  - apply Hloop.
  - destruct (dispatch_run dryRun client
      (foldl (splitter_step dryRun client path)
         {| promises := []; buffer := []; bufferSize := 0; run := st |} texts))
      as (->&_).
    apply Hloop.
Qed.

(** X10: all along a language run, a text has a cache entry exactly when
    it is shorter than 10000 and was a unit of one of the files handled so
    far: every such unit gets an entry, and nothing else does. *)
Theorem cache_holds_the_small_units (files : list (string * list string))
    (t : string) :
  is_Some (cache (language_run dryRun client files) !! t)
  <-> text_length t < 10000 /\ exists file, file ∈ files /\ t ∈ file.2.
Proof.
  induction files as [|[path texts] rest IH] using rev_ind.
  - simpl. rewrite lookup_empty. split; [by intros [? ?]|].
    intros [_ (file & ?%elem_of_nil & _)]. done.
  - rewrite language_run_snoc, splitter_cache_keys, IH. simpl. split.
    + intros [[Hs (file & Hf & Ht)]|[Ht Hs]].
      * split; [done|]. exists file. split; [|done]. apply elem_of_app. by left.
      * split; [done|]. exists (path, texts). split; [|done].
        apply elem_of_app. right. by apply list_elem_of_singleton.
    + intros [Hs (file & [Hf| ->%list_elem_of_singleton]%elem_of_app & Ht)].
      * left. split; [done|]. by exists file.
      * by right.
Qed.

End cache_keys.

(** ** The translator, whatever happens *)

Definition is_dump (e : Effect) : bool :=
  match e with Dumped _ _ => true | _ => false end.

(** Membership in a list of effects that is written out. *)
Ltac effect_in H :=
  repeat (apply elem_of_cons in H as [H|H]; [try discriminate H|]);
  try (by apply elem_of_nil in H).

Section translator_effects.
Variable Skeleton : Type.
Variable extname : string -> string.
Variable path_resolve : string -> string -> string.
Variable dirname : string -> string.
Variable loadFile : string -> option string.
Variable extract : string -> list string * Skeleton.
Variable compose : Skeleton -> list string -> string.
Variables input output : string.
Variable dryRun : bool.
Variable client : nat -> list string -> Response.

Local Abbreviation translate :=
  (translator Skeleton extname path_resolve dirname loadFile extract compose
              input output dryRun client).

(** The five ways a call of the translator goes. *)
Lemma translator_cases path st :
  translate path st = (Returned, [], st)
  \/ (exists content,
        translate path st
        = (Returned,
           [Loaded (path_resolve input path);
            DirectoryMade (dirname (path_resolve output path));
            Dumped (path_resolve output path) content], st))
  \/ (exists text content,
        translate path st
        = (Returned,
           [Loaded (path_resolve input path);
            DirectoryMade (dirname (path_resolve output path));
            Extracted text; Dumped (path_resolve output path) content], st))
  \/ (exists text units parts content st',
        translate path st
        = (Returned,
           [Loaded (path_resolve input path);
            DirectoryMade (dirname (path_resolve output path));
            Extracted text; SplitCalled path units; Composed parts;
            Dumped (path_resolve output path) content], st'))
  \/ (exists completion text units st',
        completion <> Returned
        /\ translate path st
           = (completion,
              [Loaded (path_resolve input path);
               DirectoryMade (dirname (path_resolve output path));
               Extracted text; SplitCalled path units], st')).
Proof.
  unfold translator.
  destruct (negb _); [by left|]. right.
  destruct (falsy (loadFile (path_resolve input path))).
  { left. by eexists. }
  right. destruct (extract _) as [units skeleton].
  destruct (length units =? 0)%nat.
  { left. by repeat eexists. }
  right. destruct (splitter _ _ _ _ _) as [ps st1].
  destruct (await_all st1 ps) as [values|error|].
  - left. by repeat eexists.
  - right. exists (Threw error). by repeat eexists.
  - right. exists Hangs. by repeat eexists.
Qed.

(** X11: whatever the path, the content, the state of the run and the
    backend, the translator loads nothing but the input path, makes no
    directory but the one of the output path, and writes at most one
    file: the output path, as its last effect, after making its
    directory, and only when it returns. A call that throws or hangs has
    written nothing, and a call without any effect returns and leaves the
    state of the run as it was. *)
Theorem translator_writes_at_most_once (path : string) (st : Run) :
  (forall p, Loaded p ∈ (translate path st).1.2 -> p = path_resolve input path)
  /\ (forall p, DirectoryMade p ∈ (translate path st).1.2 ->
        p = dirname (path_resolve output path))
  /\ (forall p content, Dumped p content ∈ (translate path st).1.2 ->
        p = path_resolve output path
        /\ (translate path st).1.1 = Returned
        /\ last (translate path st).1.2 = Some (Dumped p content)
        /\ DirectoryMade (dirname p) ∈ (translate path st).1.2)
  /\ (length (List.filter is_dump (translate path st).1.2) <= 1)%nat
  /\ ((translate path st).1.1 <> Returned ->
        List.filter is_dump (translate path st).1.2 = [])
  /\ ((translate path st).1.2 = [] ->
        (translate path st).1.1 = Returned /\ (translate path st).2 = st).
Proof.
  destruct (translator_cases path st)
    as [E|[(content & E)|[(text & content & E)|
        [(text & units & parts & content & st' & E)|
         (completion & text & units & st' & Hne & E)]]]];
    rewrite E; cbn [fst snd List.filter is_dump length last];
    (split; [intros p Hp; effect_in Hp; by injection Hp|]);
    (split; [intros p Hp; effect_in Hp; by injection Hp|]);
    (split; [intros p c Hp; effect_in Hp; injection Hp as -> ->;
             (split; [done|split; [done|split; [done|]]]); right; left|]);
    (split; [lia|]); (split; [done|]); done.
Qed.

End translator_effects.

(** ** A file whose batch fails *)

Lemma backoff_all_rejected {State : Type} (action : State -> Outcome * State) (s : State) :
  (forall s', rejected (action s').1) -> rejected (backoff action s).1.2.
Proof.
  intros Hfail. unfold backoff, Retry.retry.
  change (Z.to_nat (Retry.parseTimes RETRY_LIMIT - 1)) with 2%nat.
  rewrite retryAttempt_rejected by apply Hfail. cbv zeta.
  rewrite retryAttempt_rejected by apply Hfail. cbv zeta.
  rewrite retryAttempt_last. apply Hfail.
Qed.

Lemma await_all_raised st ps p error :
  p ∈ ps -> await st p = Raised error -> exists error', await_all st ps = Raised error'.
Proof.
  induction ps as [|q ps IH]; intros Hin Hp; [by apply elem_of_nil in Hin|].
  apply elem_of_cons in Hin as [<-|Hin]; simpl.
  - rewrite Hp. by eexists.
  - destruct (IH Hin Hp) as [e' ->]. destruct (await st q); by eexists.
Qed.

Section failing_batches.
Variable dryRun : bool.
Variable client : nat -> list string -> Response.

Local Abbreviation step := (splitter_step dryRun client).

Lemma dispatch_length lp :
  length (batches (run (dispatch dryRun client lp))) = S (length (batches (run lp))).
Proof.
  destruct (dispatch_batch dryRun client lp) as (trace & out & -> & _).
  rewrite length_app. simpl. lia.
Qed.

Lemma dispatch_rejected lp :
  (forall texts s, rejected (action dryRun client texts s).1) ->
  exists b,
    batches (run (dispatch dryRun client lp)) = batches (run lp) ++ [b]
    /\ batch_texts b = buffer lp /\ rejected (batch_outcome b).
Proof.
  intros Hfail. unfold dispatch, request.
  set (st1 := set_stat _ (set_stat _ _)).
  pose proof (backoff_settles dryRun client (buffer lp) st1) as (_&_&_&Hb&_).
  pose proof (backoff_all_rejected (action dryRun client (buffer lp)) st1
                (Hfail (buffer lp))) as Hrej.
  destruct (backoff _ st1) as [[trace out] st2]. simpl in *.
  eexists. rewrite Hb. split; [reflexivity|]. by split.
Qed.

(** Every batch formed from some point on has its promise among the
    promises of the invocation. *)
Lemma loop_backoff_promises path texts lp n :
  (forall k, (n <= k < length (batches (run lp)))%nat -> BackoffPromise k ∈ promises lp) ->
  forall k, (n <= k < length (batches (run (foldl (step path) lp texts))))%nat ->
    BackoffPromise k ∈ promises (foldl (step path) lp texts).
Proof.
  revert lp. induction texts as [|x rest IH]; intros lp H; [done|].
  simpl. apply IH. clear IH. intros k Hk.
  destruct (cache (run lp) !! x) as [d|] eqn:Hc.
  { rewrite (step_hit _ _ _ _ _ d) in * by done. simpl in *.
    apply elem_of_app. left. by apply H. }
  destruct (decide (BYTES_LIMIT <= text_length x)) as [Hbig|Hsmall].
  { rewrite step_too_big in * by done. simpl in *.
    apply elem_of_app. left. by apply H. }
  assert (Hlt : text_length x < BYTES_LIMIT) by (clear -Hsmall; lia).
  rewrite (step_fresh dryRun client path lp x Hc Hlt) in Hk |- *. simpl in *.
  unfold make_room in *. destruct (_ >? _); [|by apply H].
  unfold release in *. simpl in *.
  rewrite dispatch_length in Hk. rewrite dispatch_promises. apply elem_of_app.
  destruct (decide (k = length (batches (run lp)))) as [->|Hne].
  - right. by apply list_elem_of_singleton.
  - left. apply H. lia.
Qed.

Lemma splitter_backoff_promises path texts st k :
  (length (batches st) <= k
   < length (batches (splitter dryRun client path texts st).2))%nat ->
  BackoffPromise k ∈ (splitter dryRun client path texts st).1.
Proof.
  set (lp0 := {| promises := []; buffer := []; bufferSize := 0; run := st |}).
  pose proof (loop_backoff_promises path texts lp0 (length (batches st))) as H.
  unfold splitter, splitter_loop. fold lp0.
  set (lp := foldl (step path) lp0 texts) in *.
  assert (H0 : forall k, (length (batches st) <= k < length (batches (run lp)))%nat ->
                BackoffPromise k ∈ promises lp).
  { apply H. simpl. intros k' Hk'. lia. }
  destruct (bufferSize lp =? 0); simpl; [apply H0|].
  rewrite dispatch_length, dispatch_promises. intros Hk. apply elem_of_app.
  destruct (decide (k = length (batches (run lp)))) as [->|Hne].
  - right. by apply list_elem_of_singleton.
  - left. apply H0. lia.
Qed.

(** When every attempt of every action is rejected, so is every batch an
    invocation forms. *)
Lemma splitter_rejected path texts st k b :
  (forall texts s, rejected (action dryRun client texts s).1) ->
  inv st [] 0 ->
  (length (batches st) <= k)%nat ->
  batches (splitter dryRun client path texts st).2 !! k = Some b ->
  rejected (batch_outcome b).
Proof.
  intros Hfail Hinv. revert k b.
  apply (splitter_preserves dryRun client
    (fun s => forall k b, (length (batches st) <= k)%nat ->
                batches s !! k = Some b -> rejected (batch_outcome b))); try done.
  - intros lp _ _ HP k b Hk Hb.
    destruct (dispatch_rejected lp Hfail) as (b' & Hbs & _ & Hrej).
    rewrite Hbs in Hb. apply lookup_app_Some in Hb as [Hb|[_ Hb]].
    + by apply (HP k).
    + apply list_lookup_singleton_Some in Hb as [_ <-]. done.
  - intros k b Hk Hb. apply lookup_lt_Some in Hb. lia.
Qed.

(** A unit that is not the empty text, has no cache entry and is below
    the limit is in a batch when the invocation returns. *)
Lemma nonempty_text_is_flushed path texts st t :
  inv st [] 0 -> t ∈ texts -> t <> "" ->
  cache st !! t = None -> text_length t < BYTES_LIMIT ->
  t ∈ concat (formed (splitter dryRun client path texts st).2).
Proof.
  intros Hinv Ht Hne Hc Hsmall.
  set (lp0 := {| promises := []; buffer := []; bufferSize := 0; run := st |}).
  pose proof (loop_keeps_inv dryRun client path texts lp0 Hinv) as Hinv2.
  pose proof (loop_buffers dryRun client path texts lp0 t
                (or_intror (conj Ht (conj Hc Hsmall)))) as Hin.
  unfold splitter, splitter_loop. fold lp0.
  set (lp := foldl (step path) lp0 texts) in *.
  destruct (bufferSize lp =? 0) eqn:Hz; simpl.
  - apply Z.eqb_eq in Hz. rewrite (inv_size _ _ _ Hinv2) in Hz.
    apply elem_of_app in Hin as [Hin|Hin]; [done|].
    by apply (bytes_zero_all_empty _ t Hz) in Hin.
  - destruct (dispatch_run dryRun client lp) as (_&->&_).
    by rewrite concat_app; simpl; rewrite app_nil_r.
Qed.

End failing_batches.

Section translator_failure.
Variable Skeleton : Type.
Variable extname : string -> string.
Variable path_resolve : string -> string -> string.
Variable dirname : string -> string.
Variable loadFile : string -> option string.
Variable extract : string -> list string * Skeleton.
Variable compose : Skeleton -> list string -> string.
Variables input output : string.
Variable client : nat -> list string -> Response.

(** X12: in live mode, when every call to the backend fails, a document
    with a supported extension and some content, one unit of which is not
    empty, is shorter than 10000 and has no cache entry yet, makes the
    translator throw a request error after it loaded the file, made the
    output directory, extracted and called the splitter: nothing is
    composed and nothing is written. *)
Theorem translator_fails_without_writing (files : list (string * list string))
    (path text t : string) :
  (forall n texts, exists error, client n texts = Failure error) ->
  extname path ∈ supported ->
  loadFile (path_resolve input path) = Some text ->
  text <> "" ->
  t ∈ (extract text).1 ->
  t <> "" ->
  text_length t < 10000 ->
  cache (language_run false client files) !! t = None ->
  exists error,
    translator Skeleton extname path_resolve dirname loadFile extract compose
               input output false client path (language_run false client files)
    = (Threw error,
       [Loaded (path_resolve input path);
        DirectoryMade (dirname (path_resolve output path));
        Extracted text; SplitCalled path (extract text).1],
       (splitter false client path (extract text).1
          (language_run false client files)).2).
Proof.
  intros Hdown Hext Hload Htext Ht Hne Hsmall Hc.
  pose proof (language_run_inv false client files) as Hinv.
  set (st := language_run false client files) in *.
  assert (Hfail : forall texts s, rejected (action false client texts s).1).
  { intros texts s. unfold action.
    by destruct (Hdown (length (calls s)) texts) as [message ->]. }
  (* some batch is formed, and its promise is among the promises *)
  assert (Hnew : (length (batches st)
                  < length (batches (splitter false client path (extract text).1 st).2))%nat).
  { pose proof (nonempty_text_is_flushed false client path _ st t Hinv Ht Hne Hc Hsmall)
      as Hin.
    destruct (splitter_formed false client path (extract text).1 st) as (new & Hf & _).
    assert (Hlen : forall s, length (batches s) = length (formed s))
      by (intros s; unfold formed; by rewrite length_fmap).
    rewrite !Hlen, Hf, length_app. rewrite Hf, concat_app in Hin.
    destruct new as [|b new]; [|simpl; lia]. exfalso.
    rewrite app_nil_r in Hin.
    destruct (inv_cached _ _ _ Hinv t) as [d Hd]; [|congruence].
    apply elem_of_app. by left. }
  destruct (lookup_lt_is_Some_2 _ _ Hnew) as [b Hb].
  pose proof (splitter_rejected false client path _ st _ b Hfail Hinv (le_n _) Hb) as Hrej.
  destruct (await_all_raised (splitter false client path (extract text).1 st).2
              (splitter false client path (extract text).1 st).1
              (BackoffPromise (length (batches st)))
              (match batch_outcome b with
               | Rejected e => e | Resolved _ => RequestError "" end))
    as [error Herr].
  { apply splitter_backoff_promises. lia. }
  { unfold await. rewrite Hb. by destruct (batch_outcome b). }
  exists error. unfold translator.
  rewrite bool_decide_eq_true_2 by done. simpl. rewrite Hload. simpl.
  rewrite bool_decide_eq_false_2 by done.
  destruct (extract text) as [units skeleton]. simpl in *.
  destruct units as [|u units]; [by apply elem_of_nil in Ht|]. simpl.
  destruct (splitter false client path (u :: units) st) as [ps st1]. simpl in *.
  by rewrite Herr.
Qed.

End translator_failure.

(** One document, one unit, a backend that is down. *)
Lemma translator_fails_without_writing_witness :
  exists error,
    sample_translator false down "page.md" (language_run false down [])
    = (Threw error,
       [Loaded "in/page.md"; DirectoryMade "out/page.md/..";
        Extracted "Hello"; SplitCalled "page.md" (sample_extract "Hello").1],
       (splitter false down "page.md" (sample_extract "Hello").1
          (language_run false down [])).2).
Proof.
  apply (translator_fails_without_writing unit sample_extname sample_resolve
           sample_dirname sample_files sample_extract sample_compose "in" "out"
           down [] "page.md" "Hello" "Hello").
  - intros n texts. by exists (js_Error "unavailable").
  - vm_compute. do 2 right. left.
  - reflexivity.
  - discriminate.
  - vm_compute. left.
  - discriminate.
  - by vm_compute.
  - reflexivity.
Defined.

(** ** A file whose batches are answered *)

Section answered_batches.
Variable dryRun : bool.
Variable client : nat -> list string -> Response.

(** From any state a language run can be in: when the units that are
    already translated or oversized come first and the fresh ones are
    pairwise distinct, the promises of the invocation all get a value, and
    the values, in list order, are the translations in unit order. *)
Lemma splitter_values (tr : string -> string) path pre fresh st :
  answers dryRun client tr -> inv st [] 0 -> settled tr st [] ->
  (forall t, t ∈ pre -> t ∈ concat (formed st) \/ BYTES_LIMIT <= text_length t) ->
  (forall t, t ∈ fresh -> cache st !! t = None /\ text_length t < BYTES_LIMIT) ->
  NoDup fresh -> fresh <> [""] ->
  exists values,
    await_all (splitter dryRun client path (pre ++ fresh) st).2
              (splitter dryRun client path (pre ++ fresh) st).1 = Value values
    /\ flat values = translated tr <$> pre ++ fresh.
Proof.
  intros Ha Hinv Hset Hpre Hfresh Hnd Hne.
  set (lp0 := {| promises := []; buffer := []; bufferSize := 0; run := st |}).
  destruct (loop_prefix dryRun client path pre lp0) as (Hp1 & Hb1 & Hs1 & Hc1 & Hd1 & Hbt1).
  { intros t [Ht|Ht]%Hpre; [left|by right].
    apply (inv_cached _ _ _ Hinv). apply elem_of_app. by left. }
  set (lp1 := foldl (splitter_step dryRun client path) lp0 pre) in *.
  assert (Hinv1 : loop_inv lp1) by (by apply loop_keeps_inv).
  destruct (loop_fresh dryRun client tr path fresh lp1 Ha Hinv1 Hnd)
    as (newb & Hb2 & Hcat & Hp2 & Hout & Hsize).
  { intros t Ht. rewrite Hc1. by apply Hfresh. }
  set (lp2 := foldl (splitter_step dryRun client path) lp1 fresh) in *.
  assert (Hinv2 : loop_inv lp2) by (by apply loop_keeps_inv).
  assert (Hloop : splitter_loop dryRun client path (pre ++ fresh) st = lp2).
  { unfold splitter_loop. by rewrite foldl_app. }
  rewrite Hb1 in Hcat. rewrite Hp1, Hbt1 in Hp2. rewrite Hbt1 in Hb2.
  simpl in Hcat, Hp2, Hb2.
  assert (exists allb,
            batches (splitter dryRun client path (pre ++ fresh) st).2
            = batches st ++ allb
            /\ concat (batch_texts <$> allb) = fresh
            /\ (splitter dryRun client path (pre ++ fresh) st).1
               = (unit_promise st <$> pre)
                 ++ (BackoffPromise <$> seq (length (batches st)) (length allb))
            /\ Forall (fun b => batch_outcome b = Resolved (tr <$> batch_texts b)) allb
            /\ forall d old, defers st !! d = Some (Fulfilled old) ->
                 defers (splitter dryRun client path (pre ++ fresh) st).2 !! d
                 = Some (Fulfilled old))
    as (allb & Hall & Hcatall & Hpall & Houtall & Hkeep).
  { assert (Hk2 : forall d old, defers st !! d = Some (Fulfilled old) ->
                    defers (run lp2) !! d = Some (Fulfilled old)).
    { intros d old Hd. apply loop_keeps, loop_keeps. exact Hd. }
    unfold splitter. rewrite Hloop.
    destruct (bufferSize lp2 =? 0) eqn:Hz; simpl.
    - apply Z.eqb_eq in Hz. destruct Hsize as [->|Hpos]; [|lia].
      simpl in Hcat. exists []. rewrite app_nil_r. simpl.
      rewrite (inv_size _ _ _ Hinv2), Hcat in Hz.
      destruct (bytes_zero_nodup fresh Hz Hnd) as [->|Hbad]; [|done].
      repeat split; done.
    - exists (newb ++ [{| batch_texts := buffer lp2; batch_trace := [Invoked];
                          batch_outcome := Resolved (tr <$> buffer lp2) |}]).
      rewrite (dispatch_answers dryRun client tr lp2 Ha), dispatch_promises, Hb2, Hp2.
      split; [by rewrite <- app_assoc|].
      split; [by rewrite fmap_app, concat_app; simpl; rewrite app_nil_r|].
      split.
      { rewrite <- !app_assoc. do 2 f_equal.
        rewrite (length_app newb), seq_app, fmap_app. simpl.
        by rewrite length_app. }
      split.
      { apply Forall_app. split; [done|]. by constructor. }
      intros d old Hd. by apply (dispatch_run dryRun client lp2), Hk2. }
  set (r := splitter dryRun client path (pre ++ fresh) st) in *.
  exists (((fun t => [translated tr t]) <$> pre)
          ++ ((fun b => tr <$> batch_texts b) <$> allb)).
  split.
  - rewrite Hpall. apply await_all_values, Forall2_app.
    + apply Forall2_fmap, Forall_Forall2_diag, Forall_forall.
      intros t Ht. unfold unit_promise, translated.
      destruct (Hpre t Ht) as [Hdone|Hbig].
      * destruct (inv_cached _ _ _ Hinv t) as [d Hd].
        { apply elem_of_app. by left. }
        rewrite Hd. unfold await.
        pose proof (settled_formed _ _ _ Hset t d Hdone Hd) as Hv.
        apply Hkeep in Hv. rewrite Hv.
        pose proof (inv_small _ _ _ Hinv t d Hd).
        by rewrite bool_decide_eq_false_2 by lia.
      * destruct (cache st !! t) as [d|] eqn:Hd.
        { pose proof (inv_small _ _ _ Hinv t d Hd). lia. }
        unfold await. by rewrite bool_decide_eq_true_2.
    + apply Forall2_fmap, Forall2_same_length_lookup_2.
      { by rewrite length_seq. }
      intros i k b Hk Hb. apply lookup_seq in Hk as [-> Hi]. unfold await.
      rewrite Hall, lookup_app_r by lia.
      replace (length (batches st) + i - length (batches st))%nat with i by lia.
      rewrite Hb. rewrite Forall_forall in Houtall.
      rewrite (Houtall b); [done|]. by eapply list_elem_of_lookup_2.
  - unfold flat. rewrite concat_app, concat_singletons, fmap_app. f_equal.
    rewrite <- Hcatall, <- concat_fmap_fmap, <- !list_fmap_compose.
    f_equal. apply list_fmap_ext. intros i b Hb. simpl.
    apply list_fmap_ext. intros j t Ht. unfold translated.
    rewrite bool_decide_eq_false_2; [done|].
    destruct (Hfresh t) as [_ Hsmall]; [|lia].
    rewrite <- Hcatall. apply elem_of_concat. exists (batch_texts b).
    split; [by eapply list_elem_of_lookup_2|].
    apply list_elem_of_fmap. exists b. split; [done|by eapply list_elem_of_lookup_2].
Qed.

End answered_batches.

Section translator_success.
Variable Skeleton : Type.
Variable extname : string -> string.
Variable path_resolve : string -> string -> string.
Variable dirname : string -> string.
Variable loadFile : string -> option string.
Variable extract : string -> list string * Skeleton.
Variable compose : Skeleton -> list string -> string.
Variables input output : string.
Variable dryRun : bool.
Variable client : nat -> list string -> Response.

(** X13: when every batch is answered position by position (or echoed, in
    dry-run mode), a document with a supported extension whose units are
    first units already translated in the run or oversized, then fresh
    units that are pairwise distinct and not just the empty text, is
    loaded, extracted, split, composed from the translations of its units
    in unit order (oversized units as they are) and written to the output
    path; in dry-run mode what is composed is the units themselves. *)
Theorem translator_composes_in_unit_order (tr : string -> string)
    (files : list (string * list string)) (path text : string)
    (pre fresh : list string) :
  answers dryRun client tr ->
  extname path ∈ supported ->
  loadFile (path_resolve input path) = Some text ->
  text <> "" ->
  (extract text).1 = pre ++ fresh ->
  pre ++ fresh <> [] ->
  (forall t, t ∈ pre ->
     t ∈ concat (formed (language_run dryRun client files)) \/ 10000 <= text_length t) ->
  (forall t, t ∈ fresh ->
     cache (language_run dryRun client files) !! t = None /\ text_length t < 10000) ->
  NoDup fresh ->
  fresh <> [""] ->
  translator Skeleton extname path_resolve dirname loadFile extract compose
             input output dryRun client path (language_run dryRun client files)
  = (Returned,
     [Loaded (path_resolve input path);
      DirectoryMade (dirname (path_resolve output path));
      Extracted text; SplitCalled path (pre ++ fresh);
      Composed (translated tr <$> pre ++ fresh);
      Dumped (path_resolve output path)
             (Some (compose (extract text).2 (translated tr <$> pre ++ fresh)))],
     (splitter dryRun client path (pre ++ fresh)
        (language_run dryRun client files)).2)
  /\ (dryRun = true -> translated tr <$> pre ++ fresh = pre ++ fresh).
Proof.
  intros Ha Hext Hload Htext Hunits Hsome Hpre Hfresh Hnd Hne.
  destruct (splitter_values dryRun client tr path pre fresh
              (language_run dryRun client files) Ha
              (language_run_inv dryRun client files)
              (language_run_settled dryRun client tr files Ha)
              Hpre Hfresh Hnd Hne) as (values & Hawait & Hflat).
  split.
  - unfold translator.
    rewrite bool_decide_eq_true_2 by done. cbn -[splitter await_all flat].
    rewrite Hload. cbn -[splitter await_all flat].
    rewrite bool_decide_eq_false_2 by done.
    destruct (extract text) as [units skeleton]. simpl in Hunits. subst units.
    assert (Hlen : (length (pre ++ fresh) =? 0)%nat = false).
    { apply Nat.eqb_neq. by destruct (pre ++ fresh). }
    rewrite Hlen.
    destruct (splitter dryRun client path (pre ++ fresh) _) as [ps st1].
    cbn [fst snd] in Hawait |- *. by rewrite Hawait, Hflat.
  - intros ->. rewrite <- (list_fmap_id (pre ++ fresh)) at 2.
    apply list_fmap_ext. intros i t _. unfold translated. simpl in Ha.
    rewrite Ha. by destruct (bool_decide _).
Qed.

End translator_success.

(** A second document in dry-run mode: its first unit was translated for
    the first document, two fresh units follow. *)
Lemma translator_composes_in_unit_order_witness :
  translator unit sample_extname sample_resolve sample_dirname
    (fun _ => Some "doc") (fun _ => (["x"] ++ ["y"; "z"], tt)) sample_compose
    "in" "out" true echo "b.md" (language_run true echo [("a.md", ["x"])])
  = (Returned,
     [Loaded "in/b.md"; DirectoryMade "out/b.md/.."; Extracted "doc";
      SplitCalled "b.md" (["x"] ++ ["y"; "z"]);
      Composed (translated (fun t => t) <$> ["x"] ++ ["y"; "z"]);
      Dumped "out/b.md"
        (Some (sample_compose tt (translated (fun t => t) <$> ["x"] ++ ["y"; "z"])))],
     (splitter true echo "b.md" (["x"] ++ ["y"; "z"])
        (language_run true echo [("a.md", ["x"])])).2)
  /\ (true = true ->
      translated (fun t => t) <$> ["x"] ++ ["y"; "z"] = ["x"] ++ ["y"; "z"]).
Proof.
  apply (translator_composes_in_unit_order unit sample_extname sample_resolve
           sample_dirname (fun _ => Some "doc") (fun _ => (["x"] ++ ["y"; "z"], tt))
           sample_compose "in" "out" true echo (fun t => t)
           [("a.md", ["x"])] "b.md" "doc" ["x"] ["y"; "z"]).
  - intros t. reflexivity.
  - vm_compute. do 2 right. left.
  - reflexivity.
  - discriminate.
  - reflexivity.
  - discriminate.
  - intros t Ht. apply list_elem_of_singleton in Ht. subst t. left.
    vm_compute. left.
  - intros t Ht. apply elem_of_cons in Ht as [->|Ht];
      [|apply list_elem_of_singleton in Ht; subst t]; by vm_compute.
  - apply (bool_decide_unpack _). by vm_compute.
  - discriminate.
Defined.

(** * The handler (source lines 51-108) *)

(** What the handler leaves behind: the entries of [logger.error], the
    [PROCESSED] lines (the statistics of a language) and the effects of the
    translators. *)
Record Console := {
  errors : list (string * string);
  processed : list Stat;
  effects : list Effect
}.

Definition silent : Console := {| errors := []; processed := []; effects := [] |}.

(** How a call of the handler ends: it returns, an [ok(...)] assertion
    fails, or it waits for ever on [eachLimit]. *)
Inductive HandlerEnd :=
  | Done
  | AssertionError (message : string)
  | NeverEnds.

Definition error_message (e : Error) : string :=
  match e with RequestError message => message end.

(** The files of one language under [eachLimit(files, REQUESTS_LIMIT, ...)]:
    the state of the run, the number of files that hang, and what was
    logged and done so far. A file that hangs never calls back, so it
    keeps one of the [REQUESTS_LIMIT] places for good. *)
Record Pool := {
  pool_run : Run;
  pool_hung : nat;
  pool_errors : list (string * string);
  pool_effects : list Effect
}.

Section handler.
(** The collaborators: the type of a locale and its language ([source[0]],
    [target[0]]), [getYandexAuth] (which yields the credentials or throws
    an error with a message), the backend behind the client of a session,
    and those of the translator, [extract] depending on the two
    languages. *)
Variable Locale : Type.
Variable language : Locale -> string.
Variable AuthInfo : Type.
Variable getYandexAuth : string -> AuthInfo + string.
Variable backend : AuthInfo -> string -> string -> string -> nat -> list string -> Response.
Variable Skeleton : Type.
Variable extname : string -> string.
Variable path_resolve : string -> string -> string.
Variable dirname : string -> string.
Variable loadFile : string -> option string.
Variable extract : string -> string -> string -> list string * Skeleton.
Variable compose : Skeleton -> list string -> string.

(** The configuration the handler destructures (source lines 59-60). A
    parameter that is not configured is absent. *)
Record TranslateParams := {
  param_input : string;
  param_output : string;
  param_auth : option string;
  param_folder : option string;
  param_source : option Locale;
  param_targets : list Locale;
  param_files : list string;
  param_dryRun : bool
}.

(** The [translate] closure of one target language (source lines 71-85). *)
Definition translate_for (params : TranslateParams) (authInfo : AuthInfo)
    (source target : Locale) : string -> Run -> Completion * list Effect * Run :=
  translator Skeleton extname path_resolve dirname loadFile
    (extract (language source) (language target)) compose
    (param_input params) (param_output params) (param_dryRun params)
    (backend authInfo (default "" (param_folder params))
             (language source) (language target)).

(** One file under [eachLimit] (source lines 90-96): it is started when a
    place is free; what its translator throws is caught and logged with
    the file. The files are taken in the order in which their translators
    run, and a translator is run to its end before the next one: the
    invocations of the splitter do not interleave, and a batch is settled
    when it is started, as in [dispatch]. The effects of different files
    may come in another order under [eachLimit]; nothing below depends on
    their order. *)
Definition translate_file (translate : string -> Run -> Completion * list Effect * Run)
    (pool : Pool) (file : string) : Pool :=
  if REQUESTS_LIMIT <=? Z.of_nat (pool_hung pool) then pool
  else
    let '(completion, fx, st) := translate file (pool_run pool) in
    match completion with
    | Returned =>
        {| pool_run := st; pool_hung := pool_hung pool;
           pool_errors := pool_errors pool;
           pool_effects := pool_effects pool ++ fx |}
    | Threw error =>
        {| pool_run := st; pool_hung := pool_hung pool;
           pool_errors := pool_errors pool ++ [(file, error_message error)];
           pool_effects := pool_effects pool ++ fx |}
    | Hangs =>
        {| pool_run := st; pool_hung := S (pool_hung pool);
           pool_errors := pool_errors pool;
           pool_effects := pool_effects pool ++ fx |}
    end.

(** The files of one language, from a fresh cache and fresh statistics
    (source lines 82-97). *)
Definition translate_files (translate : string -> Run -> Completion * list Effect * Run)
    (files : list string) : Pool :=
  foldl (translate_file translate)
        {| pool_run := initial; pool_hung := 0; pool_errors := []; pool_effects := [] |}
        files.

(** [for (const target of targets)] (source lines 70-100): the languages
    one after the other; the [PROCESSED] line of a language is written when
    all its files called back, and the next language starts after it. *)
Fixpoint translate_targets (params : TranslateParams) (authInfo : AuthInfo)
    (source : Locale) (targets : list Locale) (console : Console)
    : HandlerEnd * Console :=
  match targets with
  | [] => (Done, console)
  | target :: rest =>
      let pool := translate_files (translate_for params authInfo source target)
                                  (param_files params) in
      let console1 :=
        {| errors := errors console ++ pool_errors pool;
           processed := processed console;
           effects := effects console ++ pool_effects pool |} in
      if (pool_hung pool =? 0)%nat then
        translate_targets params authInfo source rest
          {| errors := errors console1;
             processed := processed console1 ++ [stat (pool_run pool)];
             effects := effects console1 |}
      else (NeverEnds, console1)
  end.

(** The handler, from the configuration on. The four [ok(...)] assertions
    come before the [try]; an error of [getYandexAuth] is caught by the
    outer [catch] and logged without a file: [TranslatorError] is private
    to the module and built nowhere, so [error instanceof TranslatorError]
    is false and the file logged there is the empty string. *)
Definition handler (params : TranslateParams) : HandlerEnd * Console :=
  if falsy (param_auth params) then
    (AssertionError "Required param auth is not configured", silent)
  else if falsy (param_folder params) then
    (AssertionError "Required param folder is not configured", silent)
  else
    match param_source params with
    | None => (AssertionError "Required param source is not configured", silent)
    | Some source =>
        if (length (param_targets params) =? 0)%nat then
          (AssertionError "Required param target is not configured", silent)
        else
          match getYandexAuth (default "" (param_auth params)) with
          | inr message =>
              (Done, {| errors := [("", message)]; processed := []; effects := [] |})
          | inl authInfo =>
              translate_targets params authInfo source (param_targets params) silent
          end
    end.

End handler.

Arguments param_input {Locale} _.
Arguments param_output {Locale} _.
Arguments param_auth {Locale} _.
Arguments param_folder {Locale} _.
Arguments param_source {Locale} _.
Arguments param_targets {Locale} _.
Arguments param_files {Locale} _.
Arguments param_dryRun {Locale} _.

(** ** Properties of the handler *)

Section translator_state.
Variable Skeleton : Type.
Variable extname : string -> string.
Variable path_resolve : string -> string -> string.
Variable dirname : string -> string.
Variable loadFile : string -> option string.
Variable extract : string -> list string * Skeleton.
Variable compose : Skeleton -> list string -> string.
Variables input output : string.
Variable dryRun : bool.
Variable client : nat -> list string -> Response.

(** A call of the translator leaves the state of the run as it was, or as
    one invocation of the splitter on the units of the file makes it. *)
Lemma translator_state path st :
  (translator Skeleton extname path_resolve dirname loadFile extract compose
              input output dryRun client path st).2 = st
  \/ exists text,
       loadFile (path_resolve input path) = Some text
       /\ (translator Skeleton extname path_resolve dirname loadFile extract compose
                      input output dryRun client path st).2
          = (splitter dryRun client path (extract text).1 st).2.
Proof.
  unfold translator.
  destruct (negb _); [left; reflexivity|].
  destruct (loadFile (path_resolve input path)) as [text|] eqn:Hload;
    [|left; reflexivity].
  destruct (falsy (Some text)); [left; reflexivity|]. cbv [default from_option id].
  destruct (extract text) as [units skeleton] eqn:Hunits.
  destruct (length units =? 0)%nat; [left; reflexivity|]. right. exists text.
  split; [done|]. rewrite Hunits. cbn [fst].
  destruct (splitter dryRun client path units st) as [ps st1].
  destruct (await_all st1 ps); reflexivity.
Qed.

(** The effects of a call only concern the paths of the file. *)
Lemma translator_paths path st e :
  e ∈ (translator Skeleton extname path_resolve dirname loadFile extract compose
                  input output dryRun client path st).1.2 ->
  match e with
  | Loaded p => p = path_resolve input path
  | DirectoryMade p => p = dirname (path_resolve output path)
  | Dumped p _ => p = path_resolve output path
  | SplitCalled p _ => p = path
  | _ => True
  end.
Proof.
  destruct (translator_cases Skeleton extname path_resolve dirname loadFile extract
              compose input output dryRun client path st)
    as [E|[(content & E)|[(text & content & E)|
        [(text & units & parts & content & st' & E)|
         (completion & text & units & st' & Hne & E)]]]];
    rewrite E; cbn [fst snd]; intros He; effect_in He; by subst e.
Qed.

(** A call that has an effect is a call on a supported extension. *)
Lemma translator_effects_supported path st e :
  e ∈ (translator Skeleton extname path_resolve dirname loadFile extract compose
                  input output dryRun client path st).1.2 ->
  extname path ∈ supported.
Proof.
  unfold translator. destruct (bool_decide (extname path ∈ supported)) eqn:E.
  - intros _. by apply bool_decide_eq_true in E.
  - simpl. by intros ?%elem_of_nil.
Qed.

End translator_state.

Section handler_facts.
Variable Locale : Type.
Variable language : Locale -> string.
Variable AuthInfo : Type.
Variable getYandexAuth : string -> AuthInfo + string.
Variable backend : AuthInfo -> string -> string -> string -> nat -> list string -> Response.
Variable Skeleton : Type.
Variable extname : string -> string.
Variable path_resolve : string -> string -> string.
Variable dirname : string -> string.
Variable loadFile : string -> option string.
Variable extract : string -> string -> string -> list string * Skeleton.
Variable compose : Skeleton -> list string -> string.

Local Abbreviation handle :=
  (handler Locale language AuthInfo getYandexAuth backend Skeleton extname
           path_resolve dirname loadFile extract compose).
Local Abbreviation translate_of :=
  (translate_for Locale language AuthInfo backend Skeleton extname path_resolve
                 dirname loadFile extract compose).
Local Abbreviation targets_loop :=
  (translate_targets Locale language AuthInfo backend Skeleton extname path_resolve
                     dirname loadFile extract compose).

(** The loop over the languages ends or waits; it never throws. *)
Lemma targets_loop_end params authInfo source targets console :
  (targets_loop params authInfo source targets console).1 = Done
  \/ (targets_loop params authInfo source targets console).1 = NeverEnds.
Proof.
  revert console. induction targets as [|target rest IH]; intros console; [by left|].
  simpl. destruct (pool_hung _ =? 0)%nat; [apply IH|by right].
Qed.

(** X14: the handler checks its configuration before anything else, in
    the order auth, folder, source, targets: the first parameter that is
    not configured (for the targets: an empty list) fails its assertion,
    with its own message, and nothing is read, logged or reported. With a
    complete configuration, credentials that cannot be loaded make the
    handler log the error without a file name and return, again without
    handling any file. *)
Theorem handler_checks_configuration (params : TranslateParams Locale) :
  (falsy (param_auth params) = true ->
     handle params = (AssertionError "Required param auth is not configured", silent))
  /\ (falsy (param_auth params) = false -> falsy (param_folder params) = true ->
        handle params
        = (AssertionError "Required param folder is not configured", silent))
  /\ (falsy (param_auth params) = false -> falsy (param_folder params) = false ->
        param_source params = None ->
        handle params
        = (AssertionError "Required param source is not configured", silent))
  /\ (falsy (param_auth params) = false -> falsy (param_folder params) = false ->
        is_Some (param_source params) -> param_targets params = [] ->
        handle params
        = (AssertionError "Required param target is not configured", silent))
  /\ (forall message,
        falsy (param_auth params) = false -> falsy (param_folder params) = false ->
        is_Some (param_source params) -> param_targets params <> [] ->
        getYandexAuth (default "" (param_auth params)) = inr message ->
        handle params
        = (Done, {| errors := [("", message)]; processed := []; effects := [] |}))
  /\ (forall message,
        (handle params).1 = AssertionError message -> (handle params).2 = silent).
Proof.
  unfold handler. repeat split.
  - by intros ->.
  - by intros -> ->.
  - by intros -> -> ->.
  - intros -> -> [source ->] ->. reflexivity.
  - intros message -> -> [source ->] Hne ->.
    by destruct (param_targets params).
  - intros message.
    destruct (falsy (param_auth params)); [done|].
    destruct (falsy (param_folder params)); [done|].
    destruct (param_source params) as [source|]; [|done].
    destruct (length (param_targets params) =? 0)%nat; [done|].
    destruct (getYandexAuth _) as [authInfo|m]; [|done].
    intros H. by destruct (targets_loop_end params authInfo source
                             (param_targets params) silent) as [E|E];
      rewrite E in H.
Qed.

(** *** The files of one language *)

(** What an effect has to do with a file. *)
Definition touches (params : TranslateParams Locale) (file : string) (e : Effect) : Prop :=
  extname file ∈ supported
  /\ match e with
     | Loaded p => p = path_resolve (param_input params) file
     | DirectoryMade p => p = dirname (path_resolve (param_output params) file)
     | Dumped p _ => p = path_resolve (param_output params) file
     | SplitCalled p _ => p = file
     | _ => True
     end.

(** What holds of the files of one language all along: the errors logged
    and the effects are those of files of the list, and the state of the
    run is the one of a language run over units extracted from them. *)
Record pool_ok (params : TranslateParams Locale) (authInfo : AuthInfo)
    (source target : Locale) (pool : Pool) : Prop := {
  ok_errors : forall file message, (file, message) ∈ pool_errors pool ->
                file ∈ param_files params;
  ok_effects : forall e, e ∈ pool_effects pool ->
                 exists file, file ∈ param_files params /\ touches params file e;
  ok_run : exists invocations,
             pool_run pool
             = language_run (param_dryRun params)
                 (backend authInfo (default "" (param_folder params))
                          (language source) (language target))
                 invocations
             /\ Forall (fun invocation =>
                          invocation.1 ∈ param_files params
                          /\ exists text,
                               loadFile (path_resolve (param_input params) invocation.1)
                               = Some text
                               /\ invocation.2
                                  = (extract (language source) (language target) text).1)
                       invocations
}.

Lemma translate_file_ok params authInfo source target pool file :
  file ∈ param_files params ->
  pool_ok params authInfo source target pool ->
  pool_ok params authInfo source target
    (translate_file (translate_of params authInfo source target) pool file).
Proof.
  intros Hfile [Herr Hfx (invocations & Hrun & Hinv)]. unfold translate_file.
  destruct (REQUESTS_LIMIT <=? _); [by split; [| |exists invocations]|].
  pose proof (translator_state Skeleton extname path_resolve dirname loadFile
                (extract (language source) (language target)) compose
                (param_input params) (param_output params) (param_dryRun params)
                (backend authInfo (default "" (param_folder params))
                         (language source) (language target))
                file (pool_run pool)) as Hstate.
  pose proof (fun e => translator_paths Skeleton extname path_resolve dirname loadFile
                (extract (language source) (language target)) compose
                (param_input params) (param_output params) (param_dryRun params)
                (backend authInfo (default "" (param_folder params))
                         (language source) (language target))
                file (pool_run pool) e) as Hpaths.
  pose proof (fun e => translator_effects_supported Skeleton extname path_resolve
                dirname loadFile
                (extract (language source) (language target)) compose
                (param_input params) (param_output params) (param_dryRun params)
                (backend authInfo (default "" (param_folder params))
                         (language source) (language target))
                file (pool_run pool) e) as Hsupported.
  fold (translate_of params authInfo source target) in Hstate, Hpaths, Hsupported.
  destruct (translate_of params authInfo source target file (pool_run pool))
    as [[completion fx] st]. cbn [fst snd] in Hstate, Hpaths, Hsupported.
  assert (Hfx' : forall e, e ∈ pool_effects pool ++ fx ->
            exists file, file ∈ param_files params /\ touches params file e).
  { intros e [He|He]%elem_of_app; [by apply Hfx|].
    exists file. split; [done|]. split; [by apply (Hsupported e)|].
    specialize (Hpaths e He). by destruct e. }
  assert (Hrun' : exists invocations',
            st = language_run (param_dryRun params)
                   (backend authInfo (default "" (param_folder params))
                            (language source) (language target)) invocations'
            /\ Forall (fun invocation =>
                         invocation.1 ∈ param_files params
                         /\ exists text,
                              loadFile (path_resolve (param_input params) invocation.1)
                              = Some text
                              /\ invocation.2
                                 = (extract (language source) (language target) text).1)
                      invocations').
  { destruct Hstate as [->|(text & Hload & ->)]; [by exists invocations|].
    exists (invocations ++ [(file, (extract (language source) (language target) text).1)]).
    rewrite language_run_snoc, Hrun. split; [done|].
    apply Forall_app. split; [done|]. constructor; [|done].
    split; [done|]. by exists text. }
  destruct completion as [|error|]; split; cbn [pool_errors pool_effects pool_run];
    try done.
  intros f m [Hm|[= -> _]%list_elem_of_singleton]%elem_of_app; [by eapply Herr|done].
Qed.

Lemma translate_files_ok params authInfo source target :
  pool_ok params authInfo source target
    (translate_files (translate_of params authInfo source target) (param_files params)).
Proof.
  unfold translate_files.
  assert (G : forall files pool,
            (forall f, f ∈ files -> f ∈ param_files params) ->
            pool_ok params authInfo source target pool ->
            pool_ok params authInfo source target
              (foldl (translate_file (translate_of params authInfo source target))
                     pool files)).
  { induction files as [|f rest IH]; intros pool Hsub Hok; [done|].
    simpl. apply IH; [intros g Hg; apply Hsub; by right|].
    apply translate_file_ok; [apply Hsub; left|done]. }
  apply G; [done|]. split; cbn [pool_errors pool_effects pool_run].
  - by intros f m ?%elem_of_nil.
  - by intros e ?%elem_of_nil.
  - exists []. split; [done|constructor].
Qed.

(** *** The languages one after the other *)

Lemma targets_loop_touches params authInfo source targets console :
  (forall e, e ∈ effects console ->
     exists file, file ∈ param_files params /\ touches params file e) ->
  (forall file message, (file, message) ∈ errors console -> file ∈ param_files params) ->
  (forall e, e ∈ effects (targets_loop params authInfo source targets console).2 ->
     exists file, file ∈ param_files params /\ touches params file e)
  /\ (forall file message,
        (file, message) ∈ errors (targets_loop params authInfo source targets console).2 ->
        file ∈ param_files params).
Proof.
  revert console. induction targets as [|target rest IH]; intros console Hfx Herr;
    [done|].
  pose proof (translate_files_ok params authInfo source target) as [Herr1 Hfx1 _].
  simpl. set (pool := translate_files _ _) in *.
  assert (Hfx2 : forall e, e ∈ effects console ++ pool_effects pool ->
            exists file, file ∈ param_files params /\ touches params file e).
  { intros e [?|?]%elem_of_app; [by apply Hfx|by apply Hfx1]. }
  assert (Herr2 : forall file message,
            (file, message) ∈ errors console ++ pool_errors pool ->
            file ∈ param_files params).
  { intros f m [?|?]%elem_of_app; [by eapply Herr|by eapply Herr1]. }
  destruct (pool_hung pool =? 0)%nat; [|done].
  by apply IH.
Qed.



(** X16: whatever the configuration and the collaborators, the handler
    reads, creates and writes only for the files of the configuration,
    and only for those with a supported extension: every file it loads is
    the input path of such a file, every directory it makes and every
    file it writes is at the output path of such a file, and the splitter
    is only called with such a file. Every error it logs is logged with a
    file of the configuration, or without a file. *)
Theorem handler_touches_only_configured_files (params : TranslateParams Locale) :
  (forall e, e ∈ effects (handle params).2 ->
     exists file, file ∈ param_files params /\ touches params file e)
  /\ (forall file message, (file, message) ∈ errors (handle params).2 ->
        file ∈ param_files params \/ file = "").
Proof.
  unfold handler.
  destruct (falsy (param_auth params));
    [by split; [intros ? ?%elem_of_nil|intros ? ? ?%elem_of_nil]|].
  destruct (falsy (param_folder params));
    [by split; [intros ? ?%elem_of_nil|intros ? ? ?%elem_of_nil]|].
  destruct (param_source params) as [source|];
    [|by split; [intros ? ?%elem_of_nil|intros ? ? ?%elem_of_nil]].
  destruct (length (param_targets params) =? 0)%nat;
    [by split; [intros ? ?%elem_of_nil|intros ? ? ?%elem_of_nil]|].
  destruct (getYandexAuth _) as [authInfo|message].
  - destruct (targets_loop_touches params authInfo source (param_targets params) silent)
      as [Hfx Herr].
    + by intros ? ?%elem_of_nil.
    + by intros ? ? ?%elem_of_nil.
    + split; [done|]. intros f m Hm. left. by eapply Herr.
  - simpl. split; [by intros ? ?%elem_of_nil|].
    intros f m [= -> _]%list_elem_of_singleton. by right.
Qed.



End handler_facts.

(** ** What does not depend on the mode or on the backend *)

(** Two states of the run that differ only in what the backend was asked
    and answered: the same cache, as many deferred objects, the same
    batches, statistics and warnings. *)
Record alike (st st' : Run) : Prop := {
  alike_cache : cache st = cache st';
  alike_heap : length (defers st) = length (defers st');
  alike_formed : formed st = formed st';
  alike_bytes : stat_bytes (stat st) = stat_bytes (stat st');
  alike_chunks : stat_chunks (stat st) = stat_chunks (stat st');
  alike_warnings : warnings st = warnings st'
}.

Record loops_alike (lp lp' : Loop) : Prop := {
  alike_promises : promises lp = promises lp';
  alike_buffer : buffer lp = buffer lp';
  alike_size : bufferSize lp = bufferSize lp';
  alike_run : alike (run lp) (run lp')
}.

Section two_runs.
Variables dryRun dryRun' : bool.
Variables client client' : nat -> list string -> Response.

Lemma formed_length st st' :
  formed st = formed st' -> length (batches st) = length (batches st').
Proof.
  intros H. apply (f_equal length) in H. unfold formed in H.
  by rewrite !length_fmap in H.
Qed.

Lemma dispatch_alike lp lp' :
  loops_alike lp lp' ->
  loops_alike (dispatch dryRun client lp) (dispatch dryRun' client' lp').
Proof.
  intros [Hp Hb Hs [Hc Hh Hf Hby Hch Hw]].
  destruct (dispatch_run dryRun client lp) as (Hc1&Hf1&Hby1&Hch1&Hw1&Hh1&_).
  destruct (dispatch_run dryRun' client' lp') as (Hc2&Hf2&Hby2&Hch2&Hw2&Hh2&_).
  destruct (dispatch_buffer dryRun client lp) as [Hb1 Hs1].
  destruct (dispatch_buffer dryRun' client' lp') as [Hb2 Hs2].
  split; [| congruence | congruence |].
  - rewrite !dispatch_promises, Hp. by rewrite (formed_length _ _ Hf).
  - split; congruence.
Qed.

Lemma make_room_alike lp lp' x :
  loops_alike lp lp' ->
  loops_alike (make_room dryRun client lp x) (make_room dryRun' client' lp' x).
Proof.
  intros H. unfold make_room. rewrite <- (alike_size _ _ H).
  destruct (_ >? _); [|done].
  destruct (dispatch_alike lp lp' H) as [Hp _ _ Hr].
  unfold release. by split.
Qed.

Lemma step_alike path lp lp' x :
  loops_alike lp lp' ->
  loops_alike (splitter_step dryRun client path lp x)
              (splitter_step dryRun' client' path lp' x).
Proof.
  intros H. pose proof H as [Hp Hb Hs [Hc Hh Hf Hby Hch Hw]].
  destruct (cache (run lp) !! x) as [d|] eqn:Hx.
  { rewrite (step_hit dryRun client path lp x d Hx).
    rewrite (step_hit dryRun' client' path lp' x d) by (by rewrite <- Hc).
    split; simpl; [by rewrite Hp|done|done|done]. }
  assert (Hx' : cache (run lp') !! x = None) by (by rewrite <- Hc).
  destruct (decide (BYTES_LIMIT <= text_length x)) as [Hbig|Hsmall].
  { rewrite (step_too_big dryRun client path lp x Hx Hbig).
    rewrite (step_too_big dryRun' client' path lp' x Hx' Hbig).
    split; simpl; [by rewrite Hp|done|done|].
    split; simpl; [done|done|done|done|done|by rewrite Hw]. }
  assert (Hlt : text_length x < BYTES_LIMIT) by (clear -Hsmall; lia).
  rewrite (step_fresh dryRun client path lp x Hx Hlt).
  rewrite (step_fresh dryRun' client' path lp' x Hx' Hlt).
  destruct (make_room_alike lp lp' x H) as [Hp1 Hb1 Hs1 [Hc1 Hh1 Hf1 Hby1 Hch1 Hw1]].
  split; simpl; [done|by rewrite Hb1|by rewrite Hs1|].
  split; simpl; [by rewrite Hc1, Hh1|by rewrite !length_app, Hh1|done..].
Qed.

Lemma splitter_alike path texts st st' :
  alike st st' ->
  (splitter dryRun client path texts st).1 = (splitter dryRun' client' path texts st').1
  /\ alike (splitter dryRun client path texts st).2
           (splitter dryRun' client' path texts st').2.
Proof.
  intros H.
  assert (Hloop : forall lp lp', loops_alike lp lp' ->
            loops_alike (foldl (splitter_step dryRun client path) lp texts)
                        (foldl (splitter_step dryRun' client' path) lp' texts)).
  { induction texts as [|x rest IH]; intros lp lp' Hl; [done|].
    simpl. by apply IH, step_alike. }
  specialize (Hloop {| promises := []; buffer := []; bufferSize := 0; run := st |}
                    {| promises := []; buffer := []; bufferSize := 0; run := st' |}
                    ltac:(by split)).
  unfold splitter, splitter_loop. rewrite <- (alike_size _ _ Hloop).
  destruct (bufferSize _ =? 0); simpl.
  - by destruct Hloop.
  - by destruct (dispatch_alike _ _ Hloop).
Qed.

Lemma language_run_alike files :
  alike (language_run dryRun client files) (language_run dryRun' client' files).
Proof.
  induction files as [|[path texts] rest IH] using rev_ind; [by split|].
  rewrite !language_run_snoc. by apply splitter_alike.
Qed.

(** X15: what a language run forms does not depend on the mode or on the
    backend: whatever the two modes and the two backends, the same files
    give the same batches in the same order, the same statistics, the
    same warnings and the same cache keys, and every invocation returns
    the same list of promises. In particular a dry run forms exactly the
    batches a live run sends. *)
Theorem batches_do_not_depend_on_the_backend (files : list (string * list string))
    (path : string) (texts : list string) :
  formed (language_run dryRun client files) = formed (language_run dryRun' client' files)
  /\ stat (language_run dryRun client files) = stat (language_run dryRun' client' files)
  /\ warnings (language_run dryRun client files)
     = warnings (language_run dryRun' client' files)
  /\ cache (language_run dryRun client files) = cache (language_run dryRun' client' files)
  /\ (splitter dryRun client path texts (language_run dryRun client files)).1
     = (splitter dryRun' client' path texts (language_run dryRun' client' files)).1.
Proof.
  pose proof (language_run_alike files) as H.
  pose proof H as [Hc _ Hf Hby Hch Hw].
  split; [done|]. split; [|split; [done|split; [done|]]].
  - destruct (stat (language_run dryRun client files)),
             (stat (language_run dryRun' client' files)). simpl in *. congruence.
  - by apply splitter_alike.
Qed.

End two_runs.
